(** * Chunking, stitching and re-indexing of the roth-vectors pipeline

    Shallow embedding of
    - [src/cleanse/chunkUtils.ts]   ([splitIntoChunks], [countTokens]),
    - [src/llm/stich.ts]            (the chunk-set stitcher [main]),
    - [src/finetune/stitchCleaned.ts] (the cleaned-chunk re-indexer [main]).

    Strings are modelled as [String.string]; a character is read as one
    UTF-16 code unit in the range 0..255 (Latin-1), so JavaScript's
    [length] is [String.length]. *)

From Stdlib Require Import ZArith List String Ascii Bool Lia.
From Stdlib Require Import Sorting.Sorted Sorting.Permutation.
From Stdlib Require Import Numbers.DecimalString Numbers.DecimalNat.
Import ListNotations.
Set Warnings "-register-all".

Open Scope string_scope.
Open Scope Z_scope.

(* ------------------------------------------------------------------ *)
(** ** JavaScript helpers *)

Module JS.

(** The characters matched by the regular-expression class [\s] among
    the code units 0..255: tab, line feed, vertical tab, form feed,
    carriage return, space and no-break space (U+00A0). *)
Definition is_ws (c : ascii) : bool :=
  let n := nat_of_ascii c in
  (Nat.eqb n 9 || Nat.eqb n 10 || Nat.eqb n 11 || Nat.eqb n 12 ||
   Nat.eqb n 13 || Nat.eqb n 32 || Nat.eqb n 160)%bool.

(** [s.split(/\s/)]: the pieces between single whitespace characters.
    [text.split(/\s+/)] differs from it only by empty pieces, which the
    [.filter((token) => token.length > 0)] of the source removes. *)
Fixpoint split_ws (s : string) : list string :=
  match s with
  | EmptyString => [EmptyString]
  | String c s' =>
      if is_ws c then EmptyString :: split_ws s'
      else match split_ws s' with
           | [] => [String c EmptyString]
           | w :: ws => String c w :: ws
           end
  end.

Definition nonempty (s : string) : bool :=
  negb (Nat.eqb (String.length s) 0).

(** [Array.prototype.join(" ")] *)
Fixpoint join (l : list string) : string :=
  match l with
  | [] => EmptyString
  | [w] => w
  | w :: ws => w ++ " " ++ join ws
  end.

(** [Array.prototype.slice(start, end)], negative indices counting from
    the end, both clamped to [0, length]. *)
Definition clamp (n i : Z) : Z :=
  if i <? 0 then Z.max (n + i) 0 else Z.min i n.

Definition slice {A} (l : list A) (a b : Z) : list A :=
  let n := Z.of_nat (List.length l) in
  let a' := clamp n a in
  let b' := clamp n b in
  firstn (Z.to_nat (b' - a')) (skipn (Z.to_nat a') l).

End JS.

(* ------------------------------------------------------------------ *)
(** ** [src/cleanse/chunkUtils.ts] *)

Module Chunker.
Import JS.

(** [text.split(/\s+/).filter((token) => token.length > 0)] *)
Definition tokenize (text : string) : list string :=
  filter nonempty (split_ws text).

(** [countTokens] *)
Definition countTokens (text : string) : Z :=
  Z.of_nat (List.length (tokenize text)).

Definition OVERLAP_START : string := "<OVERLAP_START>".
Definition OVERLAP_END : string := "<OVERLAP_END>".

(** The template literal
    [`<OVERLAP_START> ${overlapTokens} <OVERLAP_END> ${remainingTokens}`]. *)
Definition marked (overlapTokens remainingTokens : string) : string :=
  OVERLAP_START ++ " " ++ overlapTokens ++ " " ++ OVERLAP_END ++ " "
    ++ remainingTokens.

(** One iteration's chunk text (lines 28-37). *)
Definition chunk_text (overlap start : Z) (currentTokens : list string) : string :=
  if (0 <? start) && (overlap <? Z.of_nat (List.length currentTokens)) then
    marked (join (slice currentTokens 0 overlap))
           (join (slice currentTokens overlap
                        (Z.of_nat (List.length currentTokens))))
  else join currentTokens.

(** The [while (start < tokens.length)] loop of [splitIntoChunks].  The
    loop need not terminate (when [chunkSize <= overlap]), so it runs on
    fuel: [None] means the fuel ran out before the loop left. *)
Fixpoint chunk_loop (fuel : nat) (tokens : list string) (chunkSize overlap : Z)
    (start : Z) (chunks : list string) : option (list string) :=
  match fuel with
  | O => None
  | S fuel' =>
      let len := Z.of_nat (List.length tokens) in
      if start <? len then
        let end_ := Z.min (start + chunkSize) len in
        let currentTokens := slice tokens start end_ in
        let chunks := app chunks [chunk_text overlap start currentTokens] in
        if end_ =? len then Some chunks
        else chunk_loop fuel' tokens chunkSize overlap (end_ - overlap) chunks
      else Some chunks
  end.

Definition splitIntoChunks_fuel (fuel : nat) (text : string)
    (chunkSize overlap : Z) : option (list string) :=
  chunk_loop fuel (tokenize text) chunkSize overlap 0 [].

(** [splitIntoChunks] with as many iterations as there are tokens, plus
    one: enough whenever the loop advances (see [C1]). *)
Definition splitIntoChunks (text : string) (chunkSize overlap : Z)
    : option (list string) :=
  splitIntoChunks_fuel (S (List.length (tokenize text))) text chunkSize overlap.

(** The de-marking of the claims (not code of the repository): in the
    token sequence of a chunk after the first, drop the leading
    [<OVERLAP_START>], the [overlap] duplicated tokens after it and the
    [<OVERLAP_END>] that follows them. *)
Definition strip_overlap (overlap : Z) (toks : list string) : list string :=
  match toks with
  | [] => []
  | t :: rest =>
      if String.eqb t OVERLAP_START then
        match skipn (Z.to_nat overlap) rest with
        | [] => []
        | e :: r => if String.eqb e OVERLAP_END then r else e :: r
        end
      else toks
  end.

(** Chunk 1's tokens followed by the de-marked tokens of chunks 2..n. *)
Definition reconstruct (overlap : Z) (chunks : list string) : list string :=
  match chunks with
  | [] => []
  | c :: cs =>
      app (tokenize c) (List.concat (map (fun c' => strip_overlap overlap (tokenize c')) cs))
  end.

(** A token: non-empty and without whitespace. *)
Fixpoint no_ws (s : string) : bool :=
  match s with
  | EmptyString => true
  | String c s' => negb (is_ws c) && no_ws s'
  end.

Definition token (w : string) : Prop := nonempty w = true /\ no_ws w = true.

(** The claims' view of a non-initial chunk: the token window of the
    iteration starting at [s] and the marked chunk that iteration emits. *)
Definition window (T : list string) (chunkSize s : Z) : list string :=
  firstn (Z.to_nat (Z.min (s + chunkSize) (Z.of_nat (List.length T)) - s))
         (skipn (Z.to_nat s) T).

Definition window_chunk (T : list string) (chunkSize overlap s : Z) : string :=
  marked (join (firstn (Z.to_nat overlap) (window T chunkSize s)))
         (join (skipn (Z.to_nat overlap) (window T chunkSize s))).

Definition chunk_ok (T : list string) (chunkSize overlap : Z) (c : string) : Prop :=
  exists s, 0 < s /\ s + overlap < Z.of_nat (List.length T) /\
            c = window_chunk T chunkSize overlap s.

End Chunker.

(* ------------------------------------------------------------------ *)
(** ** JSON values, [JSON.stringify] and object spread *)

Module Json.

(** A JSON value as [JSON.parse] returns it.  Numbers are integers
    (the only numbers the claims involve); an object is the list of its
    properties in insertion order, keys pairwise distinct. *)
Inductive json : Type :=
| JNull
| JBool (b : bool)
| JNum (n : Z)
| JStr (s : string)
| JArr (l : list json)
| JObj (kvs : list (string * json)).

Definition chr (n : nat) : string := String (ascii_of_nat n) EmptyString.
Definition dquote : string := chr 34.
Definition backslash : string := chr 92.
Definition nl : string := chr 10.

Definition hex_digit (n : nat) : string :=
  if Nat.ltb n 10 then chr (48 + n) else chr (87 + n).

(** The escaping [JSON.stringify] applies to one code unit. *)
Definition escape_char (c : ascii) : string :=
  let n := nat_of_ascii c in
  if Nat.eqb n 34 then backslash ++ dquote
  else if Nat.eqb n 92 then backslash ++ backslash
  else if Nat.eqb n 8 then backslash ++ "b"
  else if Nat.eqb n 9 then backslash ++ "t"
  else if Nat.eqb n 10 then backslash ++ "n"
  else if Nat.eqb n 12 then backslash ++ "f"
  else if Nat.eqb n 13 then backslash ++ "r"
  else if Nat.ltb n 32 then
    backslash ++ "u00" ++ hex_digit (Nat.div n 16) ++ hex_digit (Nat.modulo n 16)
  else String c EmptyString.

Fixpoint escape (s : string) : string :=
  match s with
  | EmptyString => EmptyString
  | String c s' => escape_char c ++ escape s'
  end.

Definition quote (s : string) : string := dquote ++ escape s ++ dquote.

(** Integers print in decimal, as [Number.prototype.toString]. *)
Definition num_to_string (n : Z) : string :=
  NilEmpty.string_of_int (Z.to_int n).

(** [JSON.stringify(v)] *)
Fixpoint stringify (v : json) : string :=
  match v with
  | JNull => "null"
  | JBool true => "true"
  | JBool false => "false"
  | JNum n => num_to_string n
  | JStr s => quote s
  | JArr l => "[" ++ String.concat "," (map stringify l) ++ "]"
  | JObj kvs =>
      "{" ++ String.concat ","
               (map (fun kv => match kv with
                               | (k, x) => quote k ++ ":" ++ stringify x
                               end) kvs) ++ "}"
  end.

(** [JSON.stringify(v, null, 2)], the current indentation [ind]. *)
Fixpoint stringify_pretty (ind : string) (v : json) : string :=
  match v with
  | JArr [] => "[]"
  | JObj [] => "{}"
  | JArr l =>
      let ind' := ind ++ "  " in
      "[" ++ nl ++ ind'
        ++ String.concat ("," ++ nl ++ ind') (map (stringify_pretty ind') l)
        ++ nl ++ ind ++ "]"
  | JObj kvs =>
      let ind' := ind ++ "  " in
      "{" ++ nl ++ ind'
        ++ String.concat ("," ++ nl ++ ind')
             (map (fun kv => match kv with
                             | (k, x) => quote k ++ ": " ++ stringify_pretty ind' x
                             end) kvs)
        ++ nl ++ ind ++ "}"
  | _ => stringify v
  end.

Definition stringify2 (v : json) : string := stringify_pretty "" v.

(** Property lookup [o[k]] on an object's property list. *)
Fixpoint lookup {A} (k : string) (kvs : list (string * A)) : option A :=
  match kvs with
  | [] => None
  | (k', x) :: kvs' => if String.eqb k k' then Some x else lookup k kvs'
  end.

(** Property assignment [o[k] = x]: an existing property keeps its
    place, a new one goes last. *)
Fixpoint set_prop {A} (k : string) (x : A) (kvs : list (string * A))
    : list (string * A) :=
  match kvs with
  | [] => [(k, x)]
  | (k', y) :: kvs' =>
      if String.eqb k k' then (k', x) :: kvs' else (k', y) :: set_prop k x kvs'
  end.

Definition index_key (i : nat) : string :=
  NilEmpty.string_of_uint (Nat.to_uint i).

Fixpoint indexed {A} (i : nat) (l : list A) : list (string * A) :=
  match l with
  | [] => []
  | x :: l' => (index_key i, x) :: indexed (S i) l'
  end.

Fixpoint chars (s : string) : list json :=
  match s with
  | EmptyString => []
  | String c s' => JStr (String c EmptyString) :: chars s'
  end.

(** The own enumerable properties [{...v}] copies. *)
Definition spread (v : json) : list (string * json) :=
  match v with
  | JObj kvs => kvs
  | JArr l => indexed 0 l
  | JStr s => indexed 0 (chars s)
  | _ => []
  end.

End Json.

(* ------------------------------------------------------------------ *)
(** ** Shared pieces of the two stitch scripts *)

Module Naming.
Import Json.

(** [String.prototype.toLowerCase] on the code units 0..255. *)
Definition lower_char (c : ascii) : ascii :=
  let n := nat_of_ascii c in
  if ((Nat.leb 65 n && Nat.leb n 90) ||
      (Nat.leb 192 n && Nat.leb n 222 && negb (Nat.eqb n 215)))%bool
  then ascii_of_nat (n + 32) else c.

Fixpoint toLowerCase (s : string) : string :=
  match s with
  | EmptyString => EmptyString
  | String c s' => String (lower_char c) (toLowerCase s')
  end.

Fixpoint is_prefix (p l : list ascii) : bool :=
  match p, l with
  | [], _ => true
  | a :: p', b :: l' => Ascii.eqb a b && is_prefix p' l'
  | _ :: _, [] => false
  end.

(** [s.endsWith(suf)] *)
Definition endsWith (s suf : string) : bool :=
  is_prefix (rev (list_ascii_of_string suf)) (rev (list_ascii_of_string s)).

(** Lines 88-92 of [stich.ts] and 105-111 of [stitchCleaned.ts]:
    append ".txt" unless the name already ends in it, case aside. *)
Definition finalFileName (baseName : string) : string :=
  if endsWith (toLowerCase baseName) ".txt" then baseName
  else baseName ++ ".txt".

(** [files.sort((a, b) => a.chunkNum - b.chunkNum)]: [Array.prototype.sort]
    is stable, so the result is the one of a stable insertion sort. *)
Fixpoint insert_by_num (x : string * Z) (l : list (string * Z)) : list (string * Z) :=
  match l with
  | [] => [x]
  | y :: l' => if snd x <=? snd y then x :: l else y :: insert_by_num x l'
  end.

(** Ordered by index. *)
Definition le_num (a b : string * Z) : Prop := snd a <= snd b.

Fixpoint sort_by_num (l : list (string * Z)) : list (string * Z) :=
  match l with
  | [] => []
  | x :: l' => insert_by_num x (sort_by_num l')
  end.

Definition is_digit (c : ascii) : bool :=
  let n := nat_of_ascii c in (Nat.leb 48 n && Nat.leb n 57)%bool.

(** Characters [.] does not match: line feed and carriage return (the
    other line terminators lie outside 0..255). *)
Definition is_line_terminator (c : ascii) : bool :=
  let n := nat_of_ascii c in (Nat.eqb n 10 || Nat.eqb n 13)%bool.

Fixpoint take_digits (l : list ascii) : list ascii * list ascii :=
  match l with
  | c :: l' =>
      if is_digit c then let (ds, rest) := take_digits l' in (c :: ds, rest)
      else ([], l)
  | [] => ([], [])
  end.

(** [parseInt(digits, 10)] *)
Definition parse_decimal (ds : list ascii) : Z :=
  fold_left (fun acc c => 10 * acc + Z.of_nat (nat_of_ascii c - 48)) ds 0.

(** [file.match(FILE_REGEX)] with [FILE_REGEX] the pattern "start, a
    greedy group of any characters but line terminators, a dash, a group
    of one or more digits, a dot, <ext>, end", then [match[1]] and
    [parseInt(match[2], 10)].  As the part after the dash holds no dash,
    the first group ends at the last dash, and the digit group is the
    whole digit run before ".<ext>"; read from the end of the name. *)
Definition match_chunk_file (ext file : string) : option (string * Z) :=
  let r := rev (list_ascii_of_string file) in
  let suf := rev (list_ascii_of_string ("." ++ ext)) in
  if is_prefix suf r then
    let stem := skipn (List.length suf) r in
    match take_digits stem with
    | ([], _) => None
    | (ds, dash :: base) =>
        if Ascii.eqb dash "-"%char && forallb (fun c => negb (is_line_terminator c)) base
        then Some (string_of_list_ascii (rev base), parse_decimal (rev ds))
        else None
    | (_, []) => None
    end
  else None.

(** The [Map] of groups, in insertion order. *)
Fixpoint add_to_group (baseName : string) (entry : string * Z)
    (groups : list (string * list (string * Z))) : list (string * list (string * Z)) :=
  match groups with
  | [] => [(baseName, [entry])]
  | (b, es) :: gs =>
      if String.eqb b baseName then (b, app es [entry]) :: gs
      else (b, es) :: add_to_group baseName entry gs
  end.

(** The grouping loop: names that do not match are skipped (with a
    warning). *)
Definition group_files (ext : string) (fileNames : list string)
    : list (string * list (string * Z)) :=
  fold_left (fun groups file =>
               match match_chunk_file ext file with
               | None => groups
               | Some (baseName, chunkNum) => add_to_group baseName (file, chunkNum) groups
               end) fileNames [].

End Naming.

(* ------------------------------------------------------------------ *)
(** ** [src/llm/stich.ts]: the chunk-set stitcher *)

Module Stitcher.
Import Json Naming.

(** [path.parse(baseName).name] for a name without "/" (a base name is a
    prefix of a directory entry): the name loses its extension, the part
    from the last dot on, unless that dot is its first character or the
    name is "..". *)
Fixpoint last_dot (i : nat) (s : string) (found : option nat) : option nat :=
  match s with
  | EmptyString => found
  | String c s' =>
      last_dot (S i) s' (if Ascii.eqb c "."%char then Some i else found)
  end.

Definition parse_name (baseName : string) : string :=
  if String.eqb baseName ".." then baseName
  else match last_dot 0 baseName None with
       | None | Some O => baseName
       | Some d => substring 0 d baseName
       end.

(** The outside world of the script: the directory listing of the
    cleansed folder ([None]: [readdir] failed), the result of reading
    each file ([None]: [readFile] failed), and which writes succeed. *)
Record stitch_env := {
  st_listing : option (list string);
  st_read : string -> option string;
  st_can_write : string -> bool;
  st_can_write_meta : bool
}.

(** What the script leaves behind: the files of [cleansed_stiched] and
    the [stitchMetadata] object, plus the metadata file once written. *)
Record stitch_out := {
  so_files : list (string * string);
  so_meta : list (string * Z);
  so_meta_file : option string
}.

Definition empty_out : stitch_out := {| so_files := []; so_meta := []; so_meta_file := None |}.

(** The inner loop: [stitchedText += content + "\n"] for each readable
    file, in sorted order. *)
Fixpoint stitch_contents (read : string -> option string)
    (files : list (string * Z)) (stitchedText : string) : string :=
  match files with
  | [] => stitchedText
  | (fileName, _) :: rest =>
      match read fileName with
      | Some content => stitch_contents read rest (stitchedText ++ content ++ nl)
      | None => stitch_contents read rest stitchedText
      end
  end.

(** The text stitched for one group (lines 68-86). *)
Definition stitch_group (read : string -> option string) (baseName : string)
    (files : list (string * Z)) : string :=
  let stitchedText := stitch_contents read (sort_by_num files) "" in
  parse_name baseName ++ nl ++ nl ++ stitchedText.

Definition meta_to_json (meta : list (string * Z)) : json :=
  JObj (map (fun kv => (fst kv, JObj [("length", JNum (snd kv))])) meta).

(** One iteration of the group loop (lines 68-105). *)
Definition stitch_step (env : stitch_env) (st : stitch_out)
    (group : string * list (string * Z)) : stitch_out :=
  let (baseName, files) := group in
  let stitchedText := stitch_group (st_read env) baseName files in
  let outputFileName := finalFileName baseName in
  if st_can_write env outputFileName then
    {| so_files := set_prop outputFileName stitchedText (so_files st);
       so_meta := set_prop outputFileName (Z.of_nat (String.length stitchedText)) (so_meta st);
       so_meta_file := so_meta_file st |}
  else st.

(** [main] of the stitcher. *)
Definition main (env : stitch_env) : stitch_out :=
  match st_listing env with
  | None => empty_out
  | Some fileNames =>
      let st := fold_left (stitch_step env) (group_files "txt" fileNames) empty_out in
      if st_can_write_meta env then
        {| so_files := so_files st; so_meta := so_meta st;
           so_meta_file := Some (stringify2 (meta_to_json (so_meta st))) |}
      else st
  end.

End Stitcher.

(* ------------------------------------------------------------------ *)
(** ** [src/finetune/stitchCleaned.ts]: the cleaned-chunk re-indexer *)

Module Reindexer.
Import Json Naming.

(** Reading one input file: [readFile] fails, or its text goes through
    [JSON.parse], which fails ([None]) or gives a value. *)
Inductive read_result :=
| ReadError
| ReadOk (parsed : option json).

Record reindex_env := {
  ri_listing : option (list string);
  ri_read : string -> read_result;
  ri_can_write : string -> bool;
  ri_can_write_meta : bool
}.

Record reindex_out := {
  ro_files : list (string * string);
  ro_meta : list (string * Z);
  ro_meta_file : option string
}.

Definition empty_out : reindex_out := {| ro_files := []; ro_meta := []; ro_meta_file := None |}.

(** The merging loop of one group (lines 70-97).  [None] is the
    TypeError thrown by [jsonData.chunks] when the file holds [null]: it
    is outside every [try] and ends [main]. *)
Fixpoint merge_files (read : string -> read_result) (files : list (string * Z))
    (mergedChunks : list json) : option (list json) :=
  match files with
  | [] => Some mergedChunks
  | (fileName, _) :: rest =>
      match read fileName with
      | ReadError => merge_files read rest mergedChunks
      | ReadOk None => merge_files read rest mergedChunks
      | ReadOk (Some JNull) => None
      | ReadOk (Some (JObj kvs)) =>
          match lookup "chunks" kvs with
          | Some (JArr cs) => merge_files read rest (app mergedChunks cs)
          | _ => merge_files read rest mergedChunks
          end
      | ReadOk (Some _) => merge_files read rest mergedChunks
      end
  end.

(** [mergedChunks.map((chunk, index) => ({ ...chunk, chunkNumber: index + 1 }))] *)
Fixpoint renumber_from (n : Z) (chunks : list json) : list json :=
  match chunks with
  | [] => []
  | c :: cs => JObj (set_prop "chunkNumber" (JNum n) (spread c)) :: renumber_from (n + 1) cs
  end.

Definition renumber (chunks : list json) : list json := renumber_from 1 chunks.

(** Sorting, merging and re-indexing one group (lines 64-103). *)
Definition reindex_group (read : string -> read_result) (files : list (string * Z))
    : option (list json) :=
  match merge_files read (sort_by_num files) [] with
  | None => None
  | Some mergedChunks => Some (renumber mergedChunks)
  end.

Definition meta_to_json (meta : list (string * Z)) : json :=
  JObj (map (fun kv => (fst kv, JObj [("length", JNum (snd kv))])) meta).

(** The sub-chunk list of one source record in the claims' sense: the
    [chunks] array of a parsed object, and nothing for any other record. *)
Definition sub_chunks (r : read_result) : list json :=
  match r with
  | ReadOk (Some (JObj kvs)) =>
      match lookup "chunks" kvs with
      | Some (JArr cs) => cs
      | _ => []
      end
  | _ => []
  end.

(** One iteration of the group loop: [inr] when it threw. *)
Definition reindex_step (env : reindex_env) (st : reindex_out)
    (group : string * list (string * Z)) : reindex_out + reindex_out :=
  let (baseName, files) := group in
  match reindex_group (ri_read env) files with
  | None => inr st
  | Some mergedChunks =>
      let finalFileName := finalFileName baseName in
      let finalJSON := JObj [("chunks", JArr mergedChunks)] in
      if ri_can_write env finalFileName then
        inl {| ro_files := set_prop finalFileName (stringify2 finalJSON) (ro_files st);
               ro_meta := set_prop finalFileName
                            (Z.of_nat (String.length (stringify finalJSON))) (ro_meta st);
               ro_meta_file := ro_meta_file st |}
      else inl st
  end.

Fixpoint reindex_groups (env : reindex_env) (groups : list (string * list (string * Z)))
    (st : reindex_out) : reindex_out + reindex_out :=
  match groups with
  | [] => inl st
  | g :: gs =>
      match reindex_step env st g with
      | inl st' => reindex_groups env gs st'
      | inr st' => inr st'
      end
  end.

Inductive outcome := Finished | Aborted.

(** [main] of the re-indexer, with how it ended: [Aborted] when an
    exception escaped to [main().catch]. *)
Definition main (env : reindex_env) : reindex_out * outcome :=
  match ri_listing env with
  | None => (empty_out, Finished)
  | Some fileNames =>
      match reindex_groups env (group_files "json" fileNames) empty_out with
      | inr st => (st, Aborted)
      | inl st =>
          if ri_can_write_meta env then
            ({| ro_files := ro_files st; ro_meta := ro_meta st;
                ro_meta_file := Some (stringify2 (meta_to_json (ro_meta st))) |}, Finished)
          else (st, Finished)
      end
  end.

End Reindexer.

(* ------------------------------------------------------------------ *)
(** ** [src/llm/stich.ts], lines 124-215: the character splitter *)

Module Splitter.
Import Json Naming.

Definition CHUNK_SIZE : nat := 10000.
Definition OVERLAP : nat := 200.

(** [s.substring(a)] for [0 <= a]: from [a] to the end, empty past it. *)
Definition substring_from (a : nat) (s : string) : string :=
  substring a (String.length s - a) s.

(** Lines 180-186: the first [overlap] characters wrapped in the marker
    lines. *)
Definition mark_overlap (overlap : nat) (chunk : string) : string :=
  "=== OVERLAP_START ===" ++ nl ++ substring 0 overlap chunk ++ nl
    ++ "=== OVERLAP_END ===" ++ nl ++ substring_from overlap chunk.

(** The chunk of one iteration (lines 177-187):
    [content.substring(startIndex, startIndex + CHUNK_SIZE)], marked when
    [startIndex > 0].  [startIndex] is below [content.length], so the
    substring is the [chunkSize] characters from it, fewer at the end. *)
Definition chunk_at (chunkSize overlap : nat) (content : string) (startIndex : nat)
    : string :=
  let chunk := substring startIndex chunkSize content in
  if Nat.ltb 0 startIndex then mark_overlap overlap chunk else chunk.

(** The [while (startIndex < content.length)] loop, advancing by
    [CHUNK_SIZE - OVERLAP] (9800 for the constants of the script), on
    fuel. *)
Fixpoint split_loop (chunkSize overlap : nat) (fuel : nat) (content : string)
    (startIndex : nat) (chunks : list string) : option (list string) :=
  match fuel with
  | O => None
  | S fuel' =>
      if Nat.ltb startIndex (String.length content) then
        split_loop chunkSize overlap fuel' content (startIndex + (chunkSize - overlap))
                   (app chunks [chunk_at chunkSize overlap content startIndex])
      else Some chunks
  end.

Definition split_content (content : string) : option (list string) :=
  split_loop CHUNK_SIZE OVERLAP (S (String.length content)) content 0 [].

(** [`${baseNameWithoutExt}-${chunkNumber}.txt`] *)
Definition outputFileName (baseNameWithoutExt : string) (chunkNumber : nat) : string :=
  baseNameWithoutExt ++ "-" ++ index_key chunkNumber ++ ".txt".

Record split_env := {
  sp_listing : option (list string);
  sp_read : string -> option string;
  sp_can_write : string -> bool
}.

(** The saving loop (lines 194-209) from chunk number [chunkNumber] on;
    [writeFile] replaces a file of the same name. *)
Fixpoint save_chunks (env : split_env) (baseNameWithoutExt : string) (chunkNumber : nat)
    (chunks : list string) (files : list (string * string)) : list (string * string) :=
  match chunks with
  | [] => files
  | c :: cs =>
      let name := outputFileName baseNameWithoutExt chunkNumber in
      let files := if sp_can_write env name
                   then set_prop name (baseNameWithoutExt ++ nl ++ nl ++ c) files
                   else files in
      save_chunks env baseNameWithoutExt (S chunkNumber) cs files
  end.

(** The loop over the listed files (lines 158-210); [None] when a
    splitting loop does not exit. *)
Fixpoint split_files (env : split_env) (fileNames : list string)
    (files : list (string * string)) : option (list (string * string)) :=
  match fileNames with
  | [] => Some files
  | fileName :: rest =>
      match sp_read env fileName with
      | None => split_files env rest files
      | Some content =>
          match split_content content with
          | None => None
          | Some chunks =>
              split_files env rest
                (save_chunks env (Stitcher.parse_name fileName) 1 chunks files)
          end
      end
  end.

(** [main] of the splitter: the files of [cleaned_split] it leaves. *)
Definition main (env : split_env) : option (list (string * string)) :=
  match sp_listing env with
  | None => Some []
  | Some fileNames => split_files env fileNames []
  end.

End Splitter.

(* ------------------------------------------------------------------ *)
(** ** Concrete inputs used by the examples *)

Module Examples.
Import JS Chunker Json Naming.

(** Token [t<i>] of the end-to-end example, and the tokens [t<a>..t<b>]. *)
Definition tok (i : nat) : string :=
  "t" ++ NilEmpty.string_of_uint (Nat.to_uint i).

Definition ts (a b : nat) : list string := map tok (seq a (b + 1 - a)).

Definition text_t25 : string := join (ts 1 25).

(** Records of the grouping example: [doc.pdf-2.json] listed first. *)
Definition ex_record (text : string) : json :=
  JObj [("chunks", JArr [JObj [("chunkNumber", JNum 1); ("cleanedText", JStr text)];
                         JObj [("chunkNumber", JNum 2); ("cleanedText", JStr (text ++ "'"))]])].

Definition ex_read (f : string) : Reindexer.read_result :=
  if String.eqb f "doc.pdf-1.json" then Reindexer.ReadOk (Some (ex_record "one"))
  else if String.eqb f "doc.pdf-2.json" then Reindexer.ReadOk (Some (ex_record "two"))
  else Reindexer.ReadError.

Definition ex_files : list (string * Z) := [("doc.pdf-2.json", 2); ("doc.pdf-1.json", 1)].

Definition ex_chunks : list json :=
  [JObj [("chunkNumber", JNum 1); ("cleanedText", JStr "one"); ("page", JNum 4)];
   JObj [("chunkNumber", JNum 2); ("cleanedText", JStr "two")]].

Definition ex_read_txt (f : string) : option string :=
  if String.eqb f "d.pdf-1.txt" then Some "one"
  else if String.eqb f "d.pdf-2.txt" then Some "two"
  else if String.eqb f "d.pdf-3.txt" then Some "three"
  else None.

(** The re-indexer's input of the metadata example: one record with one
    chunk. *)
Definition c7_env : Reindexer.reindex_env := {|
  Reindexer.ri_listing := Some ["doc-1.json"];
  Reindexer.ri_read := fun f =>
    if String.eqb f "doc-1.json" then
      Reindexer.ReadOk (Some (JObj [("chunks", JArr [JObj [("chunkNumber", JNum 1);
                                                          ("cleanedText", JStr "a")]])]))
    else Reindexer.ReadError;
  Reindexer.ri_can_write := fun _ => true;
  Reindexer.ri_can_write_meta := true |}.

Definition c8_read (f : string) : Reindexer.read_result :=
  if String.eqb f "doc-1.json" then Reindexer.ReadOk (Some JNull)
  else if String.eqb f "doc-2.json" then Reindexer.ReadOk (Some (ex_record "two"))
  else if String.eqb f "other-1.json" then Reindexer.ReadOk (Some (ex_record "other"))
  else Reindexer.ReadError.

(** The input of the malformed-record example: [doc-1.json] holds the
    JSON text [null]. *)
Definition c8_env (fileNames : list string) : Reindexer.reindex_env := {|
  Reindexer.ri_listing := Some fileNames;
  Reindexer.ri_read := c8_read;
  Reindexer.ri_can_write := fun _ => true;
  Reindexer.ri_can_write_meta := true |}.

End Examples.

(* ------------------------------------------------------------------ *)
(** ** Facts about the tokenizer and the chunking loop *)

Module ChunkerFacts.
Import JS Chunker.
Local Open Scope list_scope.


Lemma split_ws_not_nil : forall s, split_ws s <> [].
Proof.
  induction s as [|c s IH]; simpl; [discriminate|].
  destruct (is_ws c); [discriminate|].
  destruct (split_ws s); discriminate.
Qed.

Lemma split_ws_app_ws : forall s1 c s2, is_ws c = true ->
  split_ws (s1 ++ String c s2)%string = split_ws s1 ++ split_ws s2.
Proof.
  induction s1 as [|d s1 IH]; intros c s2 Hc; simpl.
  - rewrite Hc. reflexivity.
  - destruct (is_ws d).
    + rewrite IH by exact Hc. reflexivity.
    + rewrite IH by exact Hc.
      pose proof (split_ws_not_nil s1) as Hn.
      destruct (split_ws s1) as [|w ws]; [congruence|]. reflexivity.
Qed.

Lemma tokenize_app_ws : forall s1 c s2, is_ws c = true ->
  tokenize (s1 ++ String c s2)%string = tokenize s1 ++ tokenize s2.
Proof.
  intros. unfold tokenize. rewrite split_ws_app_ws by assumption.
  apply filter_app.
Qed.

Lemma split_ws_no_ws : forall w, no_ws w = true -> split_ws w = [w].
Proof.
  induction w as [|c w IH]; simpl; intros H; [reflexivity|].
  apply andb_prop in H as [Hc Hw]. apply negb_true_iff in Hc.
  rewrite Hc, IH by exact Hw. reflexivity.
Qed.

Lemma tokenize_token : forall w, token w -> tokenize w = [w].
Proof.
  intros w [Hne Hw]. unfold tokenize. rewrite split_ws_no_ws by exact Hw.
  simpl. rewrite Hne. reflexivity.
Qed.

Lemma split_ws_pieces : forall s, Forall (fun w => no_ws w = true) (split_ws s).
Proof.
  induction s as [|c s IH]; simpl.
  - repeat constructor.
  - destruct (is_ws c) eqn:Hc.
    + constructor; [reflexivity | exact IH].
    + destruct (split_ws s) as [|w ws]; [constructor; [simpl; rewrite Hc; reflexivity | constructor]|].
      inversion IH; subst. constructor; [simpl; rewrite Hc; assumption | assumption].
Qed.

Lemma tokenize_tokens : forall s, Forall token (tokenize s).
Proof.
  intros s. unfold tokenize.
  pose proof (split_ws_pieces s) as H.
  induction H as [|w ws Hw Hws IH]; simpl; [constructor|].
  destruct (nonempty w) eqn:Hne; [constructor; [split; assumption | exact IH] | exact IH].
Qed.

Lemma tokenize_join : forall l, Forall token l -> tokenize (join l) = l.
Proof.
  induction l as [|w l IH]; intros H; [reflexivity|].
  inversion H as [|? ? Hw Hl]; subst.
  destruct l as [|w' l].
  - apply tokenize_token. exact Hw.
  - change (join (w :: w' :: l)) with (w ++ String " " (join (w' :: l)))%string.
    rewrite tokenize_app_ws by reflexivity.
    rewrite tokenize_token by exact Hw. rewrite IH by exact Hl. reflexivity.
Qed.

Lemma tokenize_marked : forall o r, Forall token o -> Forall token r ->
  tokenize (marked (join o) (join r)) = [OVERLAP_START] ++ o ++ [OVERLAP_END] ++ r.
Proof.
  intros o r Ho Hr. unfold marked.
  change (OVERLAP_START ++ " " ++ join o ++ " " ++ OVERLAP_END ++ " " ++ join r)%string
    with (OVERLAP_START ++ String " " (join o ++ String " " (OVERLAP_END ++ String " " (join r))))%string.
  rewrite !tokenize_app_ws by reflexivity.
  rewrite !tokenize_join by assumption. reflexivity.
Qed.

Lemma Forall_firstn' {A} (P : A -> Prop) : forall n l, Forall P l -> Forall P (firstn n l).
Proof.
  induction n as [|n IH]; intros [|x l] H; simpl; try constructor.
  - inversion H; assumption.
  - inversion H; subst. apply IH. assumption.
Qed.

Lemma Forall_skipn' {A} (P : A -> Prop) : forall n l, Forall P l -> Forall P (skipn n l).
Proof.
  induction n as [|n IH]; intros [|x l] H; simpl; try assumption; try constructor.
  inversion H; subst. apply IH. assumption.
Qed.

Lemma firstn_add' {A} : forall a b (l : list A),
  firstn a l ++ firstn b (skipn a l) = firstn (a + b) l.
Proof.
  induction a as [|a IH]; intros b [|x l]; simpl; try reflexivity.
  - destruct b; reflexivity.
  - f_equal. apply IH.
Qed.

Lemma skipn_app_exact {A} : forall n (l1 l2 : list A),
  List.length l1 = n -> skipn n (l1 ++ l2) = l2.
Proof. intros n l1 l2 <-. induction l1; simpl; auto. Qed.

Lemma slice_mid {A} : forall (l : list A) a b,
  0 <= a <= b -> b <= Z.of_nat (List.length l) ->
  slice l a b = firstn (Z.to_nat (b - a)) (skipn (Z.to_nat a) l).
Proof.
  intros l a b Hab Hb. unfold slice, clamp.
  destruct (Z.ltb_spec a 0); [lia|]. destruct (Z.ltb_spec b 0); [lia|].
  rewrite (Z.min_l a), (Z.min_l b) by lia. reflexivity.
Qed.

Lemma reconstruct_snoc : forall ov acc c, acc <> [] ->
  reconstruct ov (acc ++ [c]) = reconstruct ov acc ++ strip_overlap ov (tokenize c).
Proof.
  intros ov [|c0 acc] c H; [congruence|]. simpl.
  rewrite map_app, concat_app, app_assoc. simpl. rewrite app_nil_r. reflexivity.
Qed.

Section Loop.
Variables (T : list string) (chunkSize overlap : Z).
Hypothesis HT : Forall token T.

Local Abbreviation N := (Z.of_nat (List.length T)).

Lemma window_length : forall s, 0 <= s < N ->
  List.length (window T chunkSize s) = Z.to_nat (Z.min (s + chunkSize) N - s).
Proof.
  intros s Hs. unfold window. rewrite firstn_length_le; [reflexivity|].
  rewrite length_skipn. lia.
Qed.

Lemma window_tokens : forall s, Forall token (window T chunkSize s).
Proof. intros s. apply Forall_firstn', Forall_skipn', HT. Qed.

Lemma window_split : forall s, 0 <= chunkSize -> 0 <= s < N ->
  T = firstn (Z.to_nat s) T ++ window T chunkSize s ++ skipn (Z.to_nat (Z.min (s + chunkSize) N)) T.
Proof.
  intros s Hc Hs. unfold window.
  rewrite <- (firstn_skipn (Z.to_nat s) T) at 1. f_equal.
  rewrite <- (firstn_skipn (Z.to_nat (Z.min (s + chunkSize) N - s)) (skipn (Z.to_nat s) T)) at 1.
  f_equal. rewrite skipn_skipn. f_equal. lia.
Qed.

Hypothesis Hov : 0 <= overlap.
Hypothesis Hcs : overlap < chunkSize.

Lemma tokenize_window_chunk : forall s,
  tokenize (window_chunk T chunkSize overlap s) =
  [OVERLAP_START] ++ firstn (Z.to_nat overlap) (window T chunkSize s) ++ [OVERLAP_END]
    ++ skipn (Z.to_nat overlap) (window T chunkSize s).
Proof.
  intros s. unfold window_chunk. apply tokenize_marked;
    [apply Forall_firstn' | apply Forall_skipn']; apply window_tokens.
Qed.

Lemma strip_window_chunk : forall s, 0 <= s < N -> s + overlap < N ->
  strip_overlap overlap (tokenize (window_chunk T chunkSize overlap s)) =
  firstn (Z.to_nat (Z.min (s + chunkSize) N - s - overlap))
         (skipn (Z.to_nat (s + overlap)) T).
Proof.
  intros s Hs Hso. rewrite tokenize_window_chunk. cbn [app].
  unfold strip_overlap. rewrite String.eqb_refl.
  assert (Hl : List.length (firstn (Z.to_nat overlap) (window T chunkSize s)) = Z.to_nat overlap).
  { rewrite firstn_length_le; [reflexivity|]. rewrite window_length by lia. lia. }
  rewrite skipn_app_exact by exact Hl. cbn [app]. rewrite String.eqb_refl.
  unfold window. rewrite skipn_firstn_comm, skipn_skipn.
  f_equal; [lia | f_equal; lia].
Qed.

Lemma chunk_text_window : forall s, 0 < s < N -> s + overlap < N ->
  chunk_text overlap s (slice T s (Z.min (s + chunkSize) N)) = window_chunk T chunkSize overlap s.
Proof.
  intros s Hs Hso.
  rewrite slice_mid by lia.
  fold (window T chunkSize s).
  assert (HW : Z.of_nat (List.length (window T chunkSize s)) = Z.min (s + chunkSize) N - s)
    by (rewrite window_length by lia; lia).
  unfold chunk_text. rewrite HW.
  destruct (Z.ltb_spec 0 s); [|lia].
  destruct (Z.ltb_spec overlap (Z.min (s + chunkSize) N - s)); [|lia].
  cbn [andb]. unfold window_chunk. rewrite <- HW.
  rewrite !slice_mid by lia.
  rewrite Z.sub_0_r. change (Z.to_nat 0) with 0%nat. rewrite skipn_O.
  f_equal. f_equal. apply firstn_all2. rewrite length_skipn. lia.
Qed.

Lemma chunk_loop_inv : forall fuel s acc,
  0 < s -> s + overlap < N -> (Z.to_nat (N - s) < fuel)%nat -> acc <> [] ->
  reconstruct overlap acc = firstn (Z.to_nat (s + overlap)) T ->
  exists c rest,
    chunk_loop fuel T chunkSize overlap s acc = Some (acc ++ c :: rest) /\
    c = window_chunk T chunkSize overlap s /\
    reconstruct overlap (acc ++ c :: rest) = T /\
    Forall (chunk_ok T chunkSize overlap) (c :: rest).
Proof.
  induction fuel as [|fuel IH]; intros s acc Hs Hso Hf Hacc Hrec; [lia|].
  cbn [chunk_loop].
  destruct (Z.ltb_spec s N); [|lia].
  rewrite chunk_text_window by lia.
  assert (Hstep : reconstruct overlap (acc ++ [window_chunk T chunkSize overlap s]) =
                  firstn (Z.to_nat (Z.min (s + chunkSize) N)) T).
  { rewrite reconstruct_snoc by exact Hacc. rewrite Hrec.
    rewrite strip_window_chunk by lia. rewrite firstn_add'. f_equal. lia. }
  assert (Hok : chunk_ok T chunkSize overlap (window_chunk T chunkSize overlap s)) by (exists s; repeat split; lia).
  destruct (Z.eqb_spec (Z.min (s + chunkSize) N) N) as [Heq|Hne].
  - exists (window_chunk T chunkSize overlap s), []. repeat split; auto.
    rewrite Hstep, Heq. apply firstn_all2. lia.
  - assert (He : Z.min (s + chunkSize) N = s + chunkSize) by lia.
    destruct (IH (Z.min (s + chunkSize) N - overlap) (acc ++ [window_chunk T chunkSize overlap s]))
      as (c' & rest & Hrun & Hc' & Hrec' & Hall); try lia.
    + intros Hnil. destruct acc; discriminate.
    + rewrite Hstep. f_equal. lia.
    + exists (window_chunk T chunkSize overlap s), (c' :: rest).
      rewrite <- app_assoc in Hrun, Hrec'. simpl in Hrun, Hrec'.
      repeat split; auto.
Qed.

End Loop.

Lemma countTokens_window_chunk : forall T cs ov s, Forall token T -> 0 <= ov ->
  (Z.to_nat ov <= List.length (window T cs s))%nat ->
  countTokens (window_chunk T cs ov s) = Z.of_nat (List.length (window T cs s)) + 2.
Proof.
  intros T cs ov s HT Hov Hle. unfold countTokens.
  rewrite tokenize_window_chunk by exact HT.
  rewrite !length_app. simpl.
  rewrite firstn_length_le by exact Hle. rewrite length_skipn. lia.
Qed.

Lemma split_shape : forall text cs ov, 0 <= ov < cs ->
  exists chunks,
    splitIntoChunks text cs ov = Some chunks /\
    reconstruct ov chunks = tokenize text /\
    ((chunks = [] /\ tokenize text = []) \/
     exists rest,
       chunks = join (firstn (Z.to_nat cs) (tokenize text)) :: rest /\
       Forall (chunk_ok (tokenize text) cs ov) rest /\
       (Z.of_nat (List.length (tokenize text)) <= cs -> rest = []) /\
       (cs < Z.of_nat (List.length (tokenize text)) ->
          exists rest', rest = window_chunk (tokenize text) cs ov (cs - ov) :: rest')).
Proof.
  intros text cs ov Hov.
  unfold splitIntoChunks, splitIntoChunks_fuel.
  pose proof (tokenize_tokens text) as HT.
  remember (tokenize text) as T eqn:ET. clear ET.
  destruct T as [|t0 T0].
  - exists []. split; [reflexivity|]. split; [reflexivity|]. left. split; reflexivity.
  - assert (HN : 0 < Z.of_nat (List.length (t0 :: T0))) by (simpl; lia).
    remember (t0 :: T0) as T eqn:ET. clear t0 T0 ET.
    cbn [chunk_loop].
    destruct (Z.ltb_spec 0 (Z.of_nat (List.length T))); [|lia].
    rewrite slice_mid by lia. rewrite Z.sub_0_r. change (Z.to_nat 0) with 0%nat.
    rewrite skipn_O.
    unfold chunk_text. rewrite !Z.ltb_irrefl. cbn [andb].
    assert (Hfirst : forall m, tokenize (join (firstn m T)) = firstn m T)
      by (intros m; apply tokenize_join, Forall_firstn', HT).
    destruct (Z.eqb_spec (Z.min (0 + cs) (Z.of_nat (List.length T))) (Z.of_nat (List.length T)))
      as [Heq|Hne].
    + assert (Hall : firstn (Z.to_nat (Z.min (0 + cs) (Z.of_nat (List.length T)))) T = T)
        by (rewrite Heq; apply firstn_all2; lia).
      assert (Hall' : firstn (Z.to_nat cs) T = T) by (apply firstn_all2; lia).
      eexists. split; [reflexivity|]. rewrite Hall. split.
      * simpl. rewrite app_nil_r. apply tokenize_join, HT.
      * right. exists []. rewrite Hall'. repeat split; auto; intros; lia.
    + assert (Hc : Z.min (0 + cs) (Z.of_nat (List.length T)) = cs) by lia.
      rewrite Hc.
      destruct (chunk_loop_inv T cs ov HT (proj1 Hov) (proj2 Hov) (List.length T)
                  (cs - ov) (app [] [join (firstn (Z.to_nat cs) T)]))
        as (c & rest & Hrun & Hc0 & Hrec & Hall); try lia.
      * discriminate.
      * simpl. rewrite app_nil_r, Hfirst. f_equal. lia.
      * rewrite Hrun. eexists. split; [reflexivity|]. split; [exact Hrec|].
        right. exists (c :: rest). repeat split; auto; intros; [lia|].
        exists rest. rewrite Hc0. reflexivity.
Qed.

(** With [chunkSize <= overlap] and more than [chunkSize] tokens the
    start index never leaves [.. 0], so the loop never exits. *)
Lemma chunk_loop_diverges : forall T cs ov fuel s acc,
  cs <= ov -> T <> [] -> cs < Z.of_nat (List.length T) -> s <= 0 ->
  chunk_loop fuel T cs ov s acc = None.
Proof.
  intros T cs ov fuel. induction fuel as [|fuel IH]; intros s acc Hco HT HcN Hs;
    [reflexivity|].
  assert (HN : 0 < Z.of_nat (List.length T))
    by (destruct T; [congruence | simpl; lia]).
  cbn [chunk_loop].
  destruct (Z.ltb_spec s (Z.of_nat (List.length T))); [|lia].
  destruct (Z.eqb_spec (Z.min (s + cs) (Z.of_nat (List.length T)))
                       (Z.of_nat (List.length T))); [lia|].
  apply IH; assumption || lia.
Qed.

Lemma chunk_loop_single : forall T cs ov fuel,
  T <> [] -> Z.of_nat (List.length T) <= cs ->
  chunk_loop (S fuel) T cs ov 0 [] = Some [join T].
Proof.
  intros T cs ov fuel HT Hle.
  assert (HN : 0 < Z.of_nat (List.length T))
    by (destruct T; [congruence | simpl; lia]).
  cbn [chunk_loop].
  destruct (Z.ltb_spec 0 (Z.of_nat (List.length T))); [|lia].
  rewrite Z.add_0_l, Z.min_r by exact Hle. rewrite Z.eqb_refl.
  rewrite slice_mid by lia. rewrite Z.sub_0_r. change (Z.to_nat 0) with 0%nat.
  rewrite skipn_O, firstn_all2 by lia.
  unfold chunk_text. rewrite Z.ltb_irrefl. reflexivity.
Qed.

End ChunkerFacts.

(* ------------------------------------------------------------------ *)
(** ** Facts about sorting, naming, stitching and re-indexing *)

Module StitchFacts.
Import Json Naming.


Lemma insert_by_num_perm : forall x l, Permutation (insert_by_num x l) (x :: l).
Proof.
  intros x l. induction l as [|y l IH]; simpl; [reflexivity|].
  destruct (snd x <=? snd y); [reflexivity|].
  rewrite IH. apply perm_swap.
Qed.

Lemma sort_by_num_perm : forall l, Permutation (sort_by_num l) l.
Proof.
  induction l as [|x l IH]; simpl; [constructor|].
  rewrite insert_by_num_perm, IH. reflexivity.
Qed.

Lemma insert_by_num_sorted : forall x l, Sorted le_num l -> Sorted le_num (insert_by_num x l).
Proof.
  intros x l. induction l as [|y l IH]; intros Hs; simpl.
  - repeat constructor.
  - unfold le_num in *. destruct (Z.leb_spec (snd x) (snd y)).
    + constructor; [exact Hs | constructor; exact H].
    + inversion Hs as [|? ? Hl Hhd]; subst. constructor; [apply IH, Hl|].
      destruct l as [|z l]; simpl; [constructor; unfold le_num; lia|].
      destruct (Z.leb_spec (snd x) (snd z)); constructor; unfold le_num; [lia|].
      inversion Hhd; assumption.
Qed.

Lemma sort_by_num_sorted : forall l, Sorted le_num (sort_by_num l).
Proof.
  induction l as [|x l IH]; simpl; [constructor|]. apply insert_by_num_sorted, IH.
Qed.

Lemma le_num_trans : forall a b c, le_num a b -> le_num b c -> le_num a c.
Proof. unfold le_num. intros; lia. Qed.

(** Two lists sorted by distinct numbers that are permutations of each
    other are equal. *)
Lemma sorted_perm_unique : forall l1 l2,
  StronglySorted le_num l1 -> StronglySorted le_num l2 ->
  Permutation l1 l2 -> NoDup (map snd l1) -> l1 = l2.
Proof.
  induction l1 as [|a l1 IH]; intros l2 H1 H2 Hp Hnd.
  - symmetry. apply Permutation_nil, Hp.
  - destruct l2 as [|b l2]; [apply Permutation_sym, Permutation_nil in Hp; discriminate|].
    inversion H1 as [|? ? H1s H1a]; inversion H2 as [|? ? H2s H2b]; subst.
    assert (Hab : a = b).
    { destruct (Permutation_in a Hp (or_introl eq_refl)) as [->|Ha]; [reflexivity|].
      destruct (Permutation_in b (Permutation_sym Hp) (or_introl eq_refl)) as [->|Hb];
        [reflexivity|].
      rewrite Forall_forall in H1a, H2b.
      specialize (H1a b Hb). specialize (H2b a Ha). unfold le_num in *.
      simpl in Hnd. inversion Hnd as [|? ? Hnin _]; subst.
      exfalso. apply Hnin. replace (snd a) with (snd b) by lia.
      apply in_map, Hb. }
    subst b. f_equal. apply IH; auto.
    + apply Permutation_cons_inv with a; exact Hp.
    + inversion Hnd; assumption.
Qed.

Lemma sort_by_num_unique : forall l1 l2,
  Permutation l1 l2 -> NoDup (map snd l1) -> sort_by_num l1 = sort_by_num l2.
Proof.
  intros l1 l2 Hp Hnd.
  apply sorted_perm_unique.
  - apply Sorted_StronglySorted; [exact le_num_trans | apply sort_by_num_sorted].
  - apply Sorted_StronglySorted; [exact le_num_trans | apply sort_by_num_sorted].
  - rewrite !sort_by_num_perm. exact Hp.
  - eapply Permutation_NoDup; [|exact Hnd].
    apply Permutation_map. symmetry. apply sort_by_num_perm.
Qed.

(** Properties of property lookup and assignment. *)
Lemma lookup_set_prop_same : forall {A} k (x : A) kvs,
  lookup k (set_prop k x kvs) = Some x.
Proof.
  intros A k x kvs. induction kvs as [|[k' y] kvs IH]; simpl.
  - rewrite String.eqb_refl. reflexivity.
  - destruct (String.eqb_spec k k') as [->|Hne]; simpl.
    + rewrite String.eqb_refl. reflexivity.
    + apply String.eqb_neq in Hne. rewrite Hne. exact IH.
Qed.

Lemma lookup_set_prop_other : forall {A} k k' (x : A) kvs, k <> k' ->
  lookup k (set_prop k' x kvs) = lookup k kvs.
Proof.
  intros A k k' x kvs Hne. induction kvs as [|[k'' y] kvs IH]; simpl.
  - apply String.eqb_neq in Hne. rewrite Hne. reflexivity.
  - destruct (String.eqb_spec k' k'') as [->|Hne']; simpl.
    + apply String.eqb_neq in Hne. rewrite Hne. reflexivity.
    + destruct (String.eqb k k''); [reflexivity | exact IH].
Qed.

Lemma set_prop_lookup_same : forall {A} k (x : A) kvs,
  lookup k kvs = Some x -> set_prop k x kvs = kvs.
Proof.
  intros A k x kvs. induction kvs as [|[k' y] kvs IH]; simpl; [discriminate|].
  destruct (String.eqb_spec k k') as [->|Hne].
  - intros H. injection H as ->. reflexivity.
  - intros H. f_equal. apply IH, H.
Qed.

Lemma merge_files_concat : forall read files acc,
  (forall f, In f files -> read (fst f) <> Reindexer.ReadOk (Some JNull)) ->
  Reindexer.merge_files read files acc =
  Some (app acc (List.concat (map (fun f => Reindexer.sub_chunks (read (fst f))) files))).
Proof.
  intros read files. induction files as [|[name n] files IH]; intros acc Hnn; simpl.
  - rewrite app_nil_r. reflexivity.
  - assert (Hrest : forall f, In f files -> read (fst f) <> Reindexer.ReadOk (Some JNull))
      by (intros f Hf; apply Hnn; right; exact Hf).
    pose proof (Hnn (name, n) (or_introl eq_refl)) as Hn. simpl in Hn.
    destruct (read name) as [|[v|]]; simpl; try (rewrite IH by exact Hrest; reflexivity).
    destruct v; try (rewrite IH by exact Hrest; reflexivity); [congruence|].
    destruct (lookup "chunks" kvs) as [[]|]; rewrite IH by exact Hrest;
      try reflexivity.
    rewrite app_assoc. reflexivity.
Qed.

Lemma renumber_from_length : forall l n,
  List.length (Reindexer.renumber_from n l) = List.length l.
Proof. induction l; simpl; auto. Qed.

Lemma renumber_from_nth : forall l n i c, nth_error l i = Some c ->
  nth_error (Reindexer.renumber_from n l) i =
  Some (JObj (set_prop "chunkNumber" (JNum (n + Z.of_nat i)) (spread c))).
Proof.
  induction l as [|c0 l IH]; intros n [|i] c H; simpl in *; try discriminate.
  - injection H as ->. rewrite Z.add_0_r. reflexivity.
  - rewrite (IH (n + 1) i c H). do 4 f_equal. lia.
Qed.

Lemma renumber_from_id : forall cs n,
  (forall i c, nth_error cs i = Some c ->
     exists kvs, c = JObj kvs /\ lookup "chunkNumber" kvs = Some (JNum (n + Z.of_nat i))) ->
  Reindexer.renumber_from n cs = cs.
Proof.
  induction cs as [|c cs IH]; intros n H; simpl; [reflexivity|].
  destruct (H 0%nat c eq_refl) as (kvs & -> & Hk). simpl.
  rewrite Z.add_0_r in Hk. rewrite set_prop_lookup_same by exact Hk.
  f_equal. apply IH. intros i c' Hc'.
  destruct (H (S i) c' Hc') as (kvs' & -> & Hk').
  exists kvs'. split; [reflexivity|]. rewrite Hk'. do 2 f_equal. lia.
Qed.

Lemma list_ascii_of_string_app : forall a b,
  list_ascii_of_string (a ++ b) = app (list_ascii_of_string a) (list_ascii_of_string b).
Proof. induction a as [|c a IH]; intros b; simpl; [reflexivity|]. rewrite IH. reflexivity. Qed.

Lemma toLowerCase_app : forall a b, toLowerCase (a ++ b) = toLowerCase a ++ toLowerCase b.
Proof. induction a as [|c a IH]; intros b; simpl; [reflexivity|]. rewrite IH. reflexivity. Qed.

Lemma is_prefix_spec : forall p l, is_prefix p l = true <-> exists r, l = app p r.
Proof.
  induction p as [|a p IH]; intros l; simpl.
  - split; [intros _; exists l; reflexivity | reflexivity].
  - destruct l as [|b l].
    + split; [discriminate | intros [r Hr]; discriminate].
    + rewrite andb_true_iff, IH. split.
      * intros [Hab [r ->]]. apply Ascii.eqb_eq in Hab. subst. exists r. reflexivity.
      * intros [r Hr]. injection Hr as -> ->. split; [apply Ascii.eqb_refl|].
        exists r. reflexivity.
Qed.

Lemma endsWith_spec : forall s suf, endsWith s suf = true <->
  exists p, list_ascii_of_string s = app p (list_ascii_of_string suf).
Proof.
  intros s suf. unfold endsWith. rewrite is_prefix_spec. split.
  - intros [r Hr]. exists (rev r).
    rewrite <- (rev_involutive (list_ascii_of_string s)), Hr, rev_app_distr, rev_involutive.
    reflexivity.
  - intros [p Hp]. exists (rev p). rewrite Hp, rev_app_distr. reflexivity.
Qed.

Lemma endsWith_app : forall s suf, endsWith (s ++ suf) suf = true.
Proof.
  intros s suf. apply endsWith_spec. exists (list_ascii_of_string s).
  apply list_ascii_of_string_app.
Qed.

Lemma finalFileName_ends : forall b, endsWith (toLowerCase (finalFileName b)) ".txt" = true.
Proof.
  intros b. unfold finalFileName.
  destruct (endsWith (toLowerCase b) ".txt") eqn:E; [exact E|].
  rewrite toLowerCase_app. apply endsWith_app.
Qed.

(** The stitcher records, for every name in its metadata, the length of
    the text it wrote under that name. *)
Lemma stitch_fold_meta : forall env groups st,
  (forall name len, lookup name (Stitcher.so_meta st) = Some len ->
     exists content, lookup name (Stitcher.so_files st) = Some content /\
                     len = Z.of_nat (String.length content)) ->
  let st' := fold_left (Stitcher.stitch_step env) groups st in
  forall name len, lookup name (Stitcher.so_meta st') = Some len ->
     exists content, lookup name (Stitcher.so_files st') = Some content /\
                     len = Z.of_nat (String.length content).
Proof.
  intros env groups. induction groups as [|[b fs] groups IH]; intros st Hinv; simpl.
  - exact Hinv.
  - apply IH. intros name len. unfold Stitcher.stitch_step.
    destruct (Stitcher.st_can_write env (finalFileName b)); [|apply Hinv].
    simpl. destruct (String.eqb_spec name (finalFileName b)) as [->|Hne].
    + rewrite !lookup_set_prop_same. intros H. injection H as <-.
      eexists. split; reflexivity.
    + rewrite !lookup_set_prop_other by exact Hne. apply Hinv.
Qed.

Lemma stitch_meta_matches_output : forall env name len,
  lookup name (Stitcher.so_meta (Stitcher.main env)) = Some len ->
  exists content, lookup name (Stitcher.so_files (Stitcher.main env)) = Some content /\
                  len = Z.of_nat (String.length content).
Proof.
  intros env name len. unfold Stitcher.main.
  destruct (Stitcher.st_listing env) as [fileNames|]; [|discriminate].
  pose proof (stitch_fold_meta env (group_files "txt" fileNames) Stitcher.empty_out
                ltac:(intros ? ? H; discriminate H)) as Hf.
  destruct (Stitcher.st_can_write_meta env); simpl; apply Hf.
Qed.

(** A record that fails to parse, or parses to a value other than [null]
    without a [chunks] array, leaves the merge of its group unchanged. *)
Lemma merge_files_skips_malformed : forall read pre f post acc,
  (read (fst f) = Reindexer.ReadOk None \/
   exists v, read (fst f) = Reindexer.ReadOk (Some v) /\ v <> JNull /\
             Reindexer.sub_chunks (read (fst f)) = []) ->
  Reindexer.merge_files read (app pre (f :: post)) acc =
  Reindexer.merge_files read (app pre post) acc.
Proof.
  intros read pre. induction pre as [|[name n] pre IH]; intros [fn fk] post acc Hbad; simpl.
  - simpl in Hbad. destruct Hbad as [-> | (v & Hv & Hnn & Hsub)]; [reflexivity|].
    rewrite Hv. rewrite Hv in Hsub. simpl in Hsub.
    destruct v; try reflexivity; [congruence|].
    destruct (lookup "chunks" kvs) as [[]|]; try reflexivity.
    simpl in Hsub. subst. rewrite app_nil_r. reflexivity.
  - destruct (read name) as [|[v|]]; try apply IH; try exact Hbad.
    destruct v; try apply IH; try exact Hbad; [reflexivity|].
    destruct (lookup "chunks" kvs) as [[]|]; apply IH; exact Hbad.
Qed.

End StitchFacts.

(* ------------------------------------------------------------------ *)
(** ** The claims *)

Module Claims.
Import JS Chunker ChunkerFacts Examples.

(** Claim C1: for every text, every [chunkSize > 0] and every
    [0 <= overlap < chunkSize], [splitIntoChunks] terminates, and the
    tokens of chunk 1 followed by the tokens of chunks 2..n with the
    overlap markers and the [overlap] duplicated tokens stripped are
    exactly the whitespace tokens of the text. *)
Theorem splitIntoChunks_reconstructs : forall text chunkSize overlap,
  0 < chunkSize -> 0 <= overlap < chunkSize ->
  exists chunks,
    splitIntoChunks text chunkSize overlap = Some chunks /\
    reconstruct overlap chunks = tokenize text.
Proof.
  intros text cs ov Hcs Hov.
  destruct (split_shape text cs ov Hov) as (chunks & Hrun & Hrec & _).
  exists chunks. split; assumption.
Qed.

Lemma splitIntoChunks_reconstructs_witness :
  0 < 4 /\ 0 <= 1 < 4 /\
  exists chunks,
    splitIntoChunks "a b  c d e f g" 4 1 = Some chunks /\
    reconstruct 1 chunks = tokenize "a b  c d e f g".
Proof.
  split; [lia|]. split; [lia|].
  apply (splitIntoChunks_reconstructs "a b  c d e f g" 4 1); lia.
Defined.

(** Claim C2 (as amended): [splitIntoChunks] does not check its
    parameters.  When [chunkSize <= overlap] it raises no error: a text
    without tokens gives no chunk, a text of at most [chunkSize] tokens
    gives one unmarked chunk, and a text of more than [chunkSize] tokens
    makes the loop run forever (no amount of fuel lets it exit). *)
Theorem splitIntoChunks_unchecked_parameters : forall text chunkSize overlap,
  chunkSize <= overlap ->
  (tokenize text = [] -> splitIntoChunks text chunkSize overlap = Some []) /\
  (tokenize text <> [] -> Z.of_nat (List.length (tokenize text)) <= chunkSize ->
     splitIntoChunks text chunkSize overlap = Some [join (tokenize text)]) /\
  (tokenize text <> [] -> chunkSize < Z.of_nat (List.length (tokenize text)) ->
     forall fuel, splitIntoChunks_fuel fuel text chunkSize overlap = None).
Proof.
  intros text cs ov Hco. unfold splitIntoChunks, splitIntoChunks_fuel.
  split; [|split].
  - intros HT. rewrite HT. reflexivity.
  - intros HT Hle. apply chunk_loop_single; assumption.
  - intros HT HcN fuel. apply chunk_loop_diverges; assumption || lia.
Qed.

Lemma splitIntoChunks_unchecked_parameters_witness :
  (1 <= 1) /\
  (chunk_loop 100 (tokenize "a b") 1 1 0 [] = None).
Proof.
  split; [lia|].
  pose proof (splitIntoChunks_unchecked_parameters "a b" 1 1) as H.
  destruct H as (_ & _ & H); [lia|].
  apply (H ltac:(vm_compute; discriminate) ltac:(vm_compute; reflexivity) 100%nat).
Defined.

(** Claim C2 fails: with [chunkSize <= overlap] the call returns a chunk
    sequence instead of failing. *)
Lemma splitIntoChunks_config_counterexample :
  splitIntoChunks "a" 1 1 = Some ["a"].
Proof. vm_compute. reflexivity. Qed.

(** Claim C3 fails: the last chunk of the 25-token example is not
    unmarked; the chunk list is not the one the claim lists. *)
Lemma splitIntoChunks_t25_counterexample :
  splitIntoChunks text_t25 10 3 <>
  Some [join (ts 1 10);
        marked (join (ts 8 10)) (join (ts 11 17));
        marked (join (ts 15 17)) (join (ts 18 24));
        join (ts 22 25)].
Proof. vm_compute. discriminate. Qed.

(** Claim C3 (as amended): for the tokens t1..t25 with [chunkSize = 10]
    and [overlap = 3] there are exactly four chunks: t1-t10 unmarked;
    t8-t17 with t8-t10 wrapped; t15-t24 with t15-t17 wrapped; and t22-t25
    with t22-t24 wrapped as overlap and t25 plain. *)
Theorem splitIntoChunks_t25 :
  splitIntoChunks text_t25 10 3 =
  Some [join (ts 1 10);
        marked (join (ts 8 10)) (join (ts 11 17));
        marked (join (ts 15 17)) (join (ts 18 24));
        marked (join (ts 22 24)) (join (ts 25 25))].
Proof. vm_compute. reflexivity. Qed.

(** Claim C10: with [chunkSize > 0] and [0 <= overlap < chunkSize], the
    first chunk has at most [chunkSize] tokens, while every later chunk is
    a contiguous token window of [overlap+1 .. chunkSize] tokens wrapped
    with the two marker literals, so [countTokens] of it is the window's
    size plus 2; whenever the text has at least [2*chunkSize - overlap]
    tokens the second chunk reaches [chunkSize + 2]. *)
Theorem marked_chunk_token_count : forall text chunkSize overlap,
  0 < chunkSize -> 0 <= overlap < chunkSize ->
  exists chunks,
    splitIntoChunks text chunkSize overlap = Some chunks /\
    (forall c0, hd_error chunks = Some c0 -> countTokens c0 <= chunkSize) /\
    (forall k c, (0 < k)%nat -> nth_error chunks k = Some c ->
       exists win,
         (exists pre post, tokenize text = pre ++ win ++ post)%list /\
         overlap < Z.of_nat (List.length win) <= chunkSize /\
         c = marked (join (firstn (Z.to_nat overlap) win))
                    (join (skipn (Z.to_nat overlap) win)) /\
         countTokens c = Z.of_nat (List.length win) + 2) /\
    (chunkSize + (chunkSize - overlap) <= Z.of_nat (List.length (tokenize text)) ->
       exists c, nth_error chunks 1 = Some c /\ countTokens c = chunkSize + 2).
Proof.
  intros text cs ov Hcs Hov.
  pose proof (tokenize_tokens text) as HT.
  destruct (split_shape text cs ov Hov)
    as (chunks & Hrun & _ & [[-> Hnil] | (rest & -> & Hall & _ & Hbig)]).
  - exists []. split; [exact Hrun|]. split; [|split].
    + discriminate.
    + intros [|k] c Hk Hc; [lia|]. destruct k; discriminate.
    + rewrite Hnil. simpl. lia.
  - exists (join (firstn (Z.to_nat cs) (tokenize text)) :: rest).
    split; [exact Hrun|]. split; [|split].
    + intros c0 Hc0. injection Hc0 as <-. unfold countTokens.
      rewrite tokenize_join by (apply Forall_firstn', HT).
      pose proof (firstn_le_length (Z.to_nat cs) (tokenize text)). lia.
    + intros [|k] c Hk Hc; [lia|]. simpl in Hc.
      apply nth_error_In in Hc.
      rewrite Forall_forall in Hall. destruct (Hall c Hc) as (s & Hs & Hso & ->).
      exists (window (tokenize text) cs s).
      pose proof (window_length (tokenize text) cs s ltac:(lia)) as Hlen.
      clear Hbig.
      split; [|split; [|split]].
      * eexists; eexists. apply window_split; lia.
      * lia.
      * reflexivity.
      * apply countTokens_window_chunk; [exact HT | lia | lia].
    + intros Hlong.
      destruct (Hbig ltac:(lia)) as (rest' & ->).
      eexists. split; [reflexivity|].
      pose proof (window_length (tokenize text) cs (cs - ov) ltac:(lia)) as Hlen.
      rewrite countTokens_window_chunk by (exact HT || lia).
      lia.
Qed.

Lemma marked_chunk_token_count_witness :
  0 < 10 /\ 0 <= 3 < 10 /\
  exists chunks,
    splitIntoChunks text_t25 10 3 = Some chunks /\
    (forall c0, hd_error chunks = Some c0 -> countTokens c0 <= 10) /\
    (forall k c, (0 < k)%nat -> nth_error chunks k = Some c ->
       exists win,
         (exists pre post, tokenize text_t25 = pre ++ win ++ post)%list /\
         3 < Z.of_nat (List.length win) <= 10 /\
         c = marked (join (firstn (Z.to_nat 3) win))
                    (join (skipn (Z.to_nat 3) win)) /\
         countTokens c = Z.of_nat (List.length win) + 2) /\
    (10 + (10 - 3) <= Z.of_nat (List.length (tokenize text_t25)) ->
       exists c, nth_error chunks 1 = Some c /\ countTokens c = 10 + 2).
Proof.
  split; [lia|]. split; [lia|].
  apply (marked_chunk_token_count text_t25 10 3); lia.
Defined.

Import Json Naming StitchFacts.

(** Claim C4: sorting, flattening and renumbering one group.  Whatever
    the records (none holding JSON [null], see C8), the group's files are
    sorted ascending by their numeric index, their sub-chunk lists are
    concatenated in that order, and the [i]-th chunk of the result carries
    [chunkNumber = i + 1] and otherwise the properties of the [i]-th
    merged sub-chunk. *)
Theorem reindex_group_sorts_flattens_numbers : forall read files,
  (forall f, In f files -> read (fst f) <> Reindexer.ReadOk (Some JNull)) ->
  Permutation (sort_by_num files) files /\
  Sorted (fun a b => snd a <= snd b) (sort_by_num files) /\
  exists merged,
    merged = List.concat (map (fun f => Reindexer.sub_chunks (read (fst f)))
                              (sort_by_num files)) /\
    Reindexer.reindex_group read files = Some (Reindexer.renumber merged) /\
    List.length (Reindexer.renumber merged) = List.length merged /\
    (forall i c, nth_error merged i = Some c ->
       exists kvs,
         nth_error (Reindexer.renumber merged) i = Some (JObj kvs) /\
         lookup "chunkNumber" kvs = Some (JNum (Z.of_nat i + 1)) /\
         (forall k, k <> "chunkNumber" -> lookup k kvs = lookup k (spread c))).
Proof.
  intros read files Hnn.
  split; [apply sort_by_num_perm|]. split; [apply sort_by_num_sorted|].
  eexists. split; [reflexivity|]. split; [|split].
  - unfold Reindexer.reindex_group. rewrite merge_files_concat; [reflexivity|].
    intros f Hf. apply Hnn. eapply Permutation_in; [apply sort_by_num_perm | exact Hf].
  - apply renumber_from_length.
  - intros i c Hc. eexists. split; [apply renumber_from_nth; exact Hc|].
    split; [rewrite Z.add_comm; apply lookup_set_prop_same|].
    intros k Hk. apply lookup_set_prop_other, Hk.
Qed.

Lemma reindex_group_sorts_flattens_numbers_witness :
  (forall f, In f ex_files -> ex_read (fst f) <> Reindexer.ReadOk (Some JNull)) /\
  Permutation (sort_by_num ex_files) ex_files /\
  Sorted (fun a b => snd a <= snd b) (sort_by_num ex_files) /\
  exists merged,
    merged = List.concat (map (fun f => Reindexer.sub_chunks (ex_read (fst f)))
                              (sort_by_num ex_files)) /\
    Reindexer.reindex_group ex_read ex_files = Some (Reindexer.renumber merged) /\
    List.length (Reindexer.renumber merged) = List.length merged /\
    (forall i c, nth_error merged i = Some c ->
       exists kvs,
         nth_error (Reindexer.renumber merged) i = Some (JObj kvs) /\
         lookup "chunkNumber" kvs = Some (JNum (Z.of_nat i + 1)) /\
         (forall k, k <> "chunkNumber" -> lookup k kvs = lookup k (spread c))).
Proof.
  assert (H : forall f, In f ex_files -> ex_read (fst f) <> Reindexer.ReadOk (Some JNull)).
  { intros f [<-|[<-|[]]]; vm_compute; discriminate. }
  split; [exact H|]. apply (reindex_group_sorts_flattens_numbers ex_read ex_files H).
Defined.

(** Claim C5: a single group holding one record whose chunks are objects
    already numbered 1..k comes out of the re-indexer unchanged. *)
Theorem reindex_group_idempotent : forall read fileName n kvs cs,
  read fileName = Reindexer.ReadOk (Some (JObj kvs)) ->
  lookup "chunks" kvs = Some (JArr cs) ->
  (forall i c, nth_error cs i = Some c ->
     exists ckvs, c = JObj ckvs /\ lookup "chunkNumber" ckvs = Some (JNum (Z.of_nat i + 1))) ->
  Reindexer.reindex_group read [(fileName, n)] = Some cs.
Proof.
  intros read fileName n kvs cs Hr Hk Hcs.
  unfold Reindexer.reindex_group. simpl. rewrite Hr, Hk. simpl.
  f_equal. apply renumber_from_id.
  intros i c Hc. destruct (Hcs i c Hc) as (ckvs & -> & Hn).
  exists ckvs. split; [reflexivity|]. rewrite Hn, Z.add_comm. reflexivity.
Qed.

Lemma reindex_group_idempotent_witness :
  (fun (_ : string) => Reindexer.ReadOk (Some (JObj [("chunks", JArr ex_chunks)])))
    "doc.txt-1.json" = Reindexer.ReadOk (Some (JObj [("chunks", JArr ex_chunks)])) /\
  lookup "chunks" [("chunks", JArr ex_chunks)] = Some (JArr ex_chunks) /\
  Reindexer.reindex_group
    (fun _ => Reindexer.ReadOk (Some (JObj [("chunks", JArr ex_chunks)])))
    [("doc.txt-1.json", 1)] = Some ex_chunks.
Proof.
  split; [reflexivity|]. split; [reflexivity|].
  apply (reindex_group_idempotent
           (fun _ => Reindexer.ReadOk (Some (JObj [("chunks", JArr ex_chunks)])))
           "doc.txt-1.json" 1 [("chunks", JArr ex_chunks)] ex_chunks);
    [reflexivity | reflexivity|].
  intros [|[|[|i]]] c Hc; simpl in Hc; try discriminate; injection Hc as <-;
    eexists; split; reflexivity.
Defined.

(** Claim C6: for a group whose indices are pairwise distinct, the
    stitcher sorts the files ascending by numeric index and the stitched
    text is the same for every order in which the files are listed. *)
Theorem stitch_group_order_independent : forall read baseName l1 l2,
  Permutation l1 l2 -> NoDup (map snd l1) ->
  Sorted (fun a b => snd a <= snd b) (sort_by_num l1) /\
  Stitcher.stitch_group read baseName l1 = Stitcher.stitch_group read baseName l2.
Proof.
  intros read baseName l1 l2 Hp Hnd. split; [apply sort_by_num_sorted|].
  unfold Stitcher.stitch_group. rewrite (sort_by_num_unique l1 l2 Hp Hnd). reflexivity.
Qed.

Lemma stitch_group_order_independent_witness :
  Permutation [("d.pdf-3.txt", 3); ("d.pdf-1.txt", 1); ("d.pdf-2.txt", 2)]
              [("d.pdf-1.txt", 1); ("d.pdf-2.txt", 2); ("d.pdf-3.txt", 3)] /\
  NoDup (map snd [("d.pdf-3.txt", 3); ("d.pdf-1.txt", 1); ("d.pdf-2.txt", 2)]) /\
  Sorted (fun a b => snd a <= snd b)
         (sort_by_num [("d.pdf-3.txt", 3); ("d.pdf-1.txt", 1); ("d.pdf-2.txt", 2)]) /\
  Stitcher.stitch_group ex_read_txt "d.pdf"
    [("d.pdf-3.txt", 3); ("d.pdf-1.txt", 1); ("d.pdf-2.txt", 2)] =
  Stitcher.stitch_group ex_read_txt "d.pdf"
    [("d.pdf-1.txt", 1); ("d.pdf-2.txt", 2); ("d.pdf-3.txt", 3)].
Proof.
  assert (Hp : Permutation [("d.pdf-3.txt", 3); ("d.pdf-1.txt", 1); ("d.pdf-2.txt", 2)]
                           [("d.pdf-1.txt", 1); ("d.pdf-2.txt", 2); ("d.pdf-3.txt", 3)]).
  { eapply perm_trans; [apply perm_swap|]. apply perm_skip, perm_swap. }
  assert (Hnd : NoDup (map snd [("d.pdf-3.txt", 3); ("d.pdf-1.txt", 1); ("d.pdf-2.txt", 2)])).
  { simpl. repeat constructor; simpl; intuition discriminate. }
  split; [exact Hp|]. split; [exact Hnd|].
  apply (stitch_group_order_independent ex_read_txt "d.pdf" _ _ Hp Hnd).
Defined.

(** Claim C7, re-indexer side: the file written for [doc.txt] is the
    indented [JSON.stringify(finalJSON, null, 2)], 82 characters, while
    the metadata records [JSON.stringify(finalJSON).length], 48. *)
Theorem reindex_meta_length_mismatch :
  lookup "doc.txt" (Reindexer.ro_meta (fst (Reindexer.main c7_env))) = Some 48 /\
  option_map String.length
    (lookup "doc.txt" (Reindexer.ro_files (fst (Reindexer.main c7_env)))) = Some 82%nat.
Proof. vm_compute. split; reflexivity. Qed.

(** Claim C8 at the record [doc-1.json] whose content is [null]: the run
    aborts with nothing written (no [doc.txt], no [other.txt], no
    metadata), while without that record both documents are written. *)
Theorem reindex_null_record_aborts :
  Reindexer.main (c8_env ["doc-1.json"; "doc-2.json"; "other-1.json"]) =
    ({| Reindexer.ro_files := []; Reindexer.ro_meta := []; Reindexer.ro_meta_file := None |},
     Reindexer.Aborted) /\
  snd (Reindexer.main (c8_env ["doc-2.json"; "other-1.json"])) = Reindexer.Finished /\
  map fst (Reindexer.ro_files (fst (Reindexer.main (c8_env ["doc-2.json"; "other-1.json"]))))
    = ["doc.txt"; "other.txt"].
Proof. vm_compute. split; [reflexivity|]. split; reflexivity. Qed.

(** Claim C9: the output name is the base name when it already ends in
    ".txt" (case aside) and the base name with ".txt" appended otherwise;
    it always ends in ".txt", naming it again changes nothing, and it
    ends in ".txt.txt" only if the base name already did. *)
Theorem finalFileName_no_double_extension : forall baseName,
  (endsWith (toLowerCase baseName) ".txt" = true -> finalFileName baseName = baseName) /\
  (endsWith (toLowerCase baseName) ".txt" = false ->
     finalFileName baseName = baseName ++ ".txt") /\
  endsWith (toLowerCase (finalFileName baseName)) ".txt" = true /\
  finalFileName (finalFileName baseName) = finalFileName baseName /\
  (endsWith (toLowerCase (finalFileName baseName)) ".txt.txt" = true ->
     endsWith (toLowerCase baseName) ".txt.txt" = true).
Proof.
  intros b.
  split; [intros H; unfold finalFileName; rewrite H; reflexivity|].
  split; [intros H; unfold finalFileName; rewrite H; reflexivity|].
  split; [apply finalFileName_ends|].
  split; [unfold finalFileName at 1; rewrite finalFileName_ends; reflexivity|].
  unfold finalFileName. destruct (endsWith (toLowerCase b) ".txt") eqn:E; [tauto|].
  intros H. exfalso.
  rewrite toLowerCase_app in H. apply endsWith_spec in H as [p Hp].
  rewrite list_ascii_of_string_app in Hp.
  change (list_ascii_of_string ".txt.txt")
    with (app (list_ascii_of_string ".txt") (list_ascii_of_string ".txt")) in Hp.
  rewrite app_assoc in Hp. apply app_inv_tail in Hp.
  change (toLowerCase ".txt") with ".txt" in Hp.
  assert (endsWith (toLowerCase b) ".txt" = true) by (apply endsWith_spec; exists p; exact Hp).
  congruence.
Qed.

End Claims.

(* ------------------------------------------------------------------ *)
(** ** Further facts about the chunker *)

Module ChunkerMore.
Import JS Chunker ChunkerFacts.
Local Open Scope list_scope.






(** For [overlap < chunkSize] the loop moves its start forward at every
    iteration that does not exit, so it exits within [N - start]
    iterations, emitting at most one chunk per remaining token. *)
Lemma chunk_loop_terminates : forall T cs ov, ov < cs ->
  forall fuel s acc, 0 <= s -> (Z.to_nat (Z.of_nat (List.length T) - s) < fuel)%nat ->
  exists l, chunk_loop fuel T cs ov s acc = Some (acc ++ l) /\
            Z.of_nat (List.length l) <= Z.max 0 (Z.of_nat (List.length T) - s).
Proof.
  intros T cs ov Hco fuel. induction fuel as [|fuel IH]; intros s acc Hs Hf; [lia|].
  cbn [chunk_loop].
  destruct (Z.ltb_spec s (Z.of_nat (List.length T))).
  - destruct (Z.eqb_spec (Z.min (s + cs) (Z.of_nat (List.length T))) (Z.of_nat (List.length T))).
    + eexists. split; [reflexivity|]. simpl. lia.
    + destruct (IH (Z.min (s + cs) (Z.of_nat (List.length T)) - ov)
                  (acc ++ [chunk_text ov s (slice T s (Z.min (s + cs) (Z.of_nat (List.length T))))]))
        as (l & Hrun & Hlen); [lia | lia |].
      rewrite Hrun, <- app_assoc. eexists. split; [reflexivity|]. simpl. lia.
  - exists []. rewrite app_nil_r. split; [reflexivity | simpl; lia].
Qed.

(** For [0 <= overlap < chunkSize] an iteration at [s] is the last one
    exactly when [s + chunkSize >= N]; otherwise the next one starts at
    [s + (chunkSize - overlap)]. *)
Lemma chunk_loop_count : forall T cs ov, 0 <= ov < cs ->
  forall fuel s acc, 0 <= s < Z.of_nat (List.length T) ->
  (Z.to_nat (Z.of_nat (List.length T) - s) < fuel)%nat ->
  exists l, chunk_loop fuel T cs ov s acc = Some (acc ++ l) /\
            Z.of_nat (List.length l) =
              1 + Z.max 0 ((Z.of_nat (List.length T) - s - cs + (cs - ov) - 1) / (cs - ov)).
Proof.
  intros T cs ov Hov fuel. induction fuel as [|fuel IH]; intros s acc Hs Hf; [lia|].
  cbn [chunk_loop].
  destruct (Z.ltb_spec s (Z.of_nat (List.length T))); [|lia].
  destruct (Z.eqb_spec (Z.min (s + cs) (Z.of_nat (List.length T))) (Z.of_nat (List.length T))).
  - eexists. split; [reflexivity|]. cbn [List.length Z.of_nat Pos.of_succ_nat].
    assert ((Z.of_nat (List.length T) - s - cs + (cs - ov) - 1) / (cs - ov) < 1)
      by (apply Z.div_lt_upper_bound; lia).
    lia.
  - destruct (IH (Z.min (s + cs) (Z.of_nat (List.length T)) - ov)
                (acc ++ [chunk_text ov s (slice T s (Z.min (s + cs) (Z.of_nat (List.length T))))]))
      as (l & Hrun & Hlen); [lia | lia |].
    rewrite Hrun, <- app_assoc. eexists. split; [reflexivity|].
    cbn [List.length app]. rewrite Nat2Z.inj_succ, Hlen.
    set (x := Z.of_nat (List.length T) - s - cs + (cs - ov) - 1).
    replace (Z.of_nat (List.length T) - (Z.min (s + cs) (Z.of_nat (List.length T)) - ov) - cs
             + (cs - ov) - 1) with (x + -1 * (cs - ov)) by (subst x; lia).
    rewrite Z.div_add by lia.
    assert (Hx : 0 <= (x + -1 * (cs - ov)) / (cs - ov))
      by (apply Z.div_pos; subst x; lia).
    rewrite Z.div_add in Hx by lia. lia.
Qed.


Lemma tokenize_nil_iff : forall s,
  tokenize s = [] <-> (forall c, In c (list_ascii_of_string s) -> is_ws c = true).
Proof.
  unfold tokenize. induction s as [|c s IH]; simpl.
  - split; [intros _ c [] | reflexivity].
  - destruct (is_ws c) eqn:Hc.
    + simpl. rewrite IH. split.
      * intros H d [<-|Hd]; [exact Hc | apply H, Hd].
      * intros H d Hd. apply H. right. exact Hd.
    + destruct (split_ws s) as [|w ws]; simpl.
      * split; [discriminate | intros H; rewrite H in Hc by (left; reflexivity); discriminate].
      * split; [discriminate | intros H; rewrite H in Hc by (left; reflexivity); discriminate].
Qed.

End ChunkerMore.

(* ------------------------------------------------------------------ *)
(** ** Facts about the character splitter *)

Module SplitterFacts.
Import Json Naming Splitter StitchFacts.
Local Open Scope list_scope.






Lemma div_ceil_step : forall x d, (0 < d)%nat -> (0 < x)%nat ->
  ((x + d - 1) / d = S ((x - d + d - 1) / d))%nat.
Proof.
  intros x d Hd Hx. destruct (Nat.le_gt_cases d x).
  - replace (x + d - 1)%nat with (x - d + d - 1 + 1 * d)%nat by lia.
    rewrite Nat.div_add by lia. lia.
  - replace (x - d + d - 1)%nat with (d - 1)%nat by lia.
    rewrite (Nat.div_small (d - 1)) by lia.
    replace (x + d - 1)%nat with (x - 1 + 1 * d)%nat by lia.
    rewrite Nat.div_add, Nat.div_small by lia. reflexivity.
Qed.

Section Loop.
Variables (C O : nat).
Hypothesis HOC : (O < C)%nat.

Lemma split_loop_spec : forall content fuel start acc,
  (String.length content - start < fuel)%nat ->
  split_loop C O fuel content start acc =
  Some (acc ++ map (fun k => chunk_at C O content (start + k * (C - O)))
                   (seq 0 ((String.length content - start + (C - O) - 1) / (C - O)))).
Proof.
  intros content fuel. induction fuel as [|fuel IH]; intros start acc Hf; [lia|].
  cbn [split_loop].
  destruct (Nat.ltb_spec start (String.length content)).
  - rewrite IH by lia. rewrite <- app_assoc. do 2 f_equal.
    replace (String.length content - (start + (C - O)))%nat
      with (String.length content - start - (C - O))%nat by lia.
    rewrite (div_ceil_step (String.length content - start) (C - O)) by lia.
    cbn [seq map]. rewrite Nat.mul_0_l, Nat.add_0_r.
    rewrite <- seq_shift, map_map. cbn [app]. f_equal. apply map_ext. intros k.
    f_equal. rewrite Nat.mul_succ_l. lia.
  - replace (String.length content - start)%nat with 0%nat by lia.
    rewrite Nat.div_small by lia. simpl. rewrite app_nil_r. reflexivity.
Qed.


Lemma piece_split : forall (l : list ascii) s,
  firstn C (skipn s l) =
  firstn (C - O) (skipn s l) ++ firstn O (skipn (s + (C - O)) l).
Proof.
  intros l s. replace (s + (C - O))%nat with (C - O + s)%nat by lia.
  rewrite <- skipn_skipn, ChunkerFacts.firstn_add'. f_equal. lia.
Qed.

End Loop.

Lemma constants : (OVERLAP < CHUNK_SIZE)%nat /\ (CHUNK_SIZE - OVERLAP = 9800)%nat.
Proof. split; [apply Nat.ltb_lt; vm_compute; reflexivity | vm_compute; reflexivity]. Qed.

Lemma split_content_spec : forall content,
  split_content content =
  Some (map (fun k => chunk_at CHUNK_SIZE OVERLAP content (k * (CHUNK_SIZE - OVERLAP)))
            (seq 0 ((String.length content + (CHUNK_SIZE - OVERLAP) - 1)
                    / (CHUNK_SIZE - OVERLAP)))).
Proof.
  intros content. unfold split_content.
  rewrite split_loop_spec by (apply constants || lia).
  rewrite Nat.sub_0_r. reflexivity.
Qed.








(** Decimal digits of the chunk number. *)
Lemma string_of_uint_digits : forall d,
  Forall (fun c => is_digit c = true) (list_ascii_of_string (NilEmpty.string_of_uint d)).
Proof. induction d; simpl; constructor; auto. Qed.

Lemma parse_decimal_acc : forall d acc,
  fold_left (fun acc c => 10 * acc + Z.of_nat (nat_of_ascii c - 48))
            (list_ascii_of_string (NilEmpty.string_of_uint d)) (Z.of_nat acc)
  = Z.of_nat (Nat.of_uint_acc d acc).
Proof.
  induction d; intros acc;
    cbn [NilEmpty.string_of_uint list_ascii_of_string fold_left Nat.of_uint_acc];
    try reflexivity.
  all: rewrite <- IHd; f_equal; rewrite Nat.tail_mul_spec;
    match goal with
    | |- context [(nat_of_ascii ?c - 48)%nat] =>
        let v := eval vm_compute in (nat_of_ascii c - 48)%nat in
        change (nat_of_ascii c - 48)%nat with v
    end; lia.
Qed.

Lemma parse_index_key : forall n,
  parse_decimal (list_ascii_of_string (index_key n)) = Z.of_nat n.
Proof.
  intros n. unfold parse_decimal, index_key.
  change 0 with (Z.of_nat 0). rewrite parse_decimal_acc.
  change (Nat.of_uint_acc (Nat.to_uint n) 0) with (Nat.of_uint (Nat.to_uint n)).
  rewrite DecimalNat.Unsigned.of_to. reflexivity.
Qed.

Lemma index_key_not_nil : forall n, list_ascii_of_string (index_key n) <> [].
Proof.
  intros n. unfold index_key.
  destruct (Nat.to_uint n) eqn:E; simpl; try discriminate.
  pose proof (DecimalNat.Unsigned.of_to n) as H. rewrite E in H. simpl in H. subst n.
  discriminate E.
Qed.

Lemma take_digits_app : forall ds c rest,
  Forall (fun c => is_digit c = true) ds -> is_digit c = false ->
  take_digits (ds ++ c :: rest) = (ds, c :: rest).
Proof.
  induction ds as [|d ds IH]; intros c rest Hds Hc; simpl.
  - rewrite Hc. reflexivity.
  - inversion Hds; subst. rewrite H1, IH by assumption. reflexivity.
Qed.

Lemma forallb_rev' {A} (f : A -> bool) : forall l, forallb f (rev l) = forallb f l.
Proof.
  intros l. apply Bool.eq_iff_eq_true. rewrite !forallb_forall.
  split; intros H x Hx; apply H; [rewrite <- in_rev | rewrite in_rev]; exact Hx.
Qed.

(** The names the splitter gives its outputs are read back by the
    stitcher's file pattern (with extension "txt") as the pair of base
    name and chunk number. *)
Lemma match_outputFileName : forall b n,
  forallb (fun c => negb (is_line_terminator c)) (list_ascii_of_string b) = true ->
  match_chunk_file "txt" (outputFileName b n) = Some (b, Z.of_nat n).
Proof.
  intros b n Hb. unfold match_chunk_file, outputFileName.
  set (k := list_ascii_of_string (index_key n)).
  assert (Hr : rev (list_ascii_of_string (b ++ "-" ++ index_key n ++ ".txt")) =
               app (rev (list_ascii_of_string ".txt"))
                   (app (rev k) ("-"%char :: rev (list_ascii_of_string b)))).
  { rewrite !list_ascii_of_string_app, !rev_app_distr. fold k.
    rewrite <- !app_assoc. reflexivity. }
  rewrite Hr. change ("." ++ "txt")%string with ".txt".
  rewrite (proj2 (is_prefix_spec _ _)) by (eexists; reflexivity).
  rewrite ChunkerFacts.skipn_app_exact by reflexivity.
  rewrite take_digits_app by (reflexivity || apply Forall_rev, string_of_uint_digits).
  destruct (rev k) as [|x xs] eqn:Ek.
  - exfalso. apply (index_key_not_nil n). fold k.
    rewrite <- (rev_involutive k), Ek. reflexivity.
  - cbn [Ascii.eqb Bool.eqb andb]. rewrite forallb_rev', Hb.
    rewrite <- Ek, !rev_involutive, string_of_list_ascii_of_string.
    unfold k. rewrite parse_index_key. reflexivity.
Qed.

Section RoundTrip.
Variables (C O : nat).
Hypothesis HOC : (O < C)%nat.


End RoundTrip.

End SplitterFacts.

(* ------------------------------------------------------------------ *)
(** ** Facts about grouping, stitching and re-indexing *)

Module PipelineFacts.
Import Json Naming StitchFacts SplitterFacts.
Local Open Scope list_scope.

(** Grouping. *)
Lemma group_files_snoc : forall ext names f,
  group_files ext (names ++ [f]) =
  match match_chunk_file ext f with
  | None => group_files ext names
  | Some (b, n) => add_to_group b (f, n) (group_files ext names)
  end.
Proof. intros. unfold group_files. rewrite fold_left_app. reflexivity. Qed.

Lemma group_files_skip : forall ext pre f post, match_chunk_file ext f = None ->
  group_files ext (pre ++ f :: post) = group_files ext (pre ++ post).
Proof.
  intros ext pre f post Hf. unfold group_files. rewrite !fold_left_app. simpl.
  rewrite Hf. reflexivity.
Qed.

Lemma lookup_add_to_group : forall b' e gs b,
  lookup b (add_to_group b' e gs) =
  if String.eqb b b' then
    Some (match lookup b gs with Some es => es ++ [e] | None => [e] end)
  else lookup b gs.
Proof.
  intros b' e gs b. induction gs as [|[k es] gs IH]; simpl.
  - destruct (String.eqb b b'); reflexivity.
  - destruct (String.eqb_spec k b') as [->|Hne]; simpl.
    + destruct (String.eqb b b'); reflexivity.
    + rewrite IH. destruct (String.eqb_spec b k) as [->|Hbk].
      * destruct (String.eqb_spec k b'); [congruence | reflexivity].
      * reflexivity.
Qed.

Lemma map_fst_add_to_group : forall b e gs,
  map fst (add_to_group b e gs) =
  if existsb (String.eqb b) (map fst gs) then map fst gs else map fst gs ++ [b].
Proof.
  intros b e gs. induction gs as [|[k es] gs IH]; simpl; [reflexivity|].
  destruct (String.eqb_spec k b) as [->|Hne]; simpl.
  - rewrite String.eqb_refl. reflexivity.
  - rewrite IH. destruct (String.eqb_spec b k); [congruence|]. simpl.
    destruct (existsb _ _); reflexivity.
Qed.

Lemma NoDup_add_to_group : forall b e gs,
  NoDup (map fst gs) -> NoDup (map fst (add_to_group b e gs)).
Proof.
  intros b e gs H. rewrite map_fst_add_to_group.
  destruct (existsb (String.eqb b) (map fst gs)) eqn:E; [exact H|].
  apply NoDup_app; [exact H | repeat constructor; intros [] |].
  intros x Hx [Hbx|[]]. subst x. apply Bool.not_true_iff_false in E. apply E.
  apply existsb_exists. exists b. split; [exact Hx | apply String.eqb_refl].
Qed.

Lemma group_files_nodup : forall ext names, NoDup (map fst (group_files ext names)).
Proof.
  intros ext names. induction names as [|f names IH] using rev_ind; [constructor|].
  rewrite group_files_snoc. destruct (match_chunk_file ext f) as [[b n]|];
    [apply NoDup_add_to_group|]; exact IH.
Qed.

Lemma group_files_lookup : forall ext names b,
  lookup b (group_files ext names) =
  match List.concat (map (fun f => match match_chunk_file ext f with
                                   | Some (b', n) => if String.eqb b' b then [(f, n)] else []
                                   | None => []
                                   end) names) with
  | [] => None
  | es => Some es
  end.
Proof.
  intros ext names b. induction names as [|f names IH] using rev_ind; [reflexivity|].
  rewrite group_files_snoc, map_app, concat_app. simpl.
  destruct (match_chunk_file ext f) as [[b' n]|]; simpl.
  - rewrite lookup_add_to_group, IH.
    destruct (String.eqb_spec b' b) as [->|Hne].
    + rewrite String.eqb_refl. destruct (List.concat _); reflexivity.
    + destruct (String.eqb_spec b b'); [congruence|]. rewrite !app_nil_r. reflexivity.
  - rewrite app_nil_r. exact IH.
Qed.

Lemma group_entries : forall ext names x,
  (exists b es, In (b, es) (group_files ext names) /\ In x es) <->
  In (fst x) names /\ exists b, match_chunk_file ext (fst x) = Some (b, snd x).
Proof.
  intros ext names [f n]. simpl. split.
  - intros (b & es & Hg & Hx).
    pose proof (group_files_lookup ext names b) as Hl.
    assert (Hlk : lookup b (group_files ext names) = Some es).
    { pose proof (group_files_nodup ext names) as Hnd.
      clear Hl. induction (group_files ext names) as [|[k v] gs IHg]; [destruct Hg|].
      simpl in *. inversion Hnd as [|? ? Hn Hd]; subst.
      destruct Hg as [Hg|Hg].
      - injection Hg as -> ->. rewrite String.eqb_refl. reflexivity.
      - destruct (String.eqb_spec b k) as [->|]; [|apply IHg; assumption].
        exfalso. apply Hn. apply in_map_iff. exists (k, es). split; [reflexivity | exact Hg]. }
    rewrite Hlk in Hl.
    assert (Hin : In (f, n) (List.concat (map (fun f => match match_chunk_file ext f with
                                   | Some (b', n) => if String.eqb b' b then [(f, n)] else []
                                   | None => []
                                   end) names))).
    { destruct (List.concat _); [discriminate | injection Hl as ->; exact Hx]. }
    apply in_concat in Hin as (l & Hl' & Hfl). apply in_map_iff in Hl' as (f' & <- & Hf').
    destruct (match_chunk_file ext f') as [[b' n']|] eqn:Em; [|destruct Hfl].
    destruct (String.eqb_spec b' b); [|destruct Hfl].
    destruct Hfl as [Hfl|[]]. injection Hfl as -> ->.
    split; [exact Hf' | exists b'; exact Em].
  - intros (Hf & b & Hm).
    pose proof (group_files_lookup ext names b) as Hl.
    assert (Hin : In (f, n) (List.concat (map (fun f => match match_chunk_file ext f with
                                   | Some (b', n) => if String.eqb b' b then [(f, n)] else []
                                   | None => []
                                   end) names))).
    { apply in_concat. eexists. split; [apply in_map_iff; exists f; split; [reflexivity | exact Hf]|].
      rewrite Hm, String.eqb_refl. left; reflexivity. }
    destruct (List.concat _) as [|e es] eqn:Ec; [destruct Hin|].
    exists b, (e :: es). split; [|exact Hin].
    clear -Hl. induction (group_files ext names) as [|[k v] gs IHg]; [discriminate|].
    simpl in Hl. destruct (String.eqb_spec b k) as [->|]; [injection Hl as ->; left; reflexivity|].
    right. apply IHg, Hl.
Qed.

(** Re-indexer. *)
Lemma merge_files_none : forall read files acc,
  Reindexer.merge_files read files acc = None <->
  exists f, In f files /\ read (fst f) = Reindexer.ReadOk (Some JNull).
Proof.
  intros read files. induction files as [|[name n] files IH]; intros acc; simpl.
  - split; [discriminate | intros (f & [] & _)].
  - assert (Hskip : forall acc', read name <> Reindexer.ReadOk (Some JNull) ->
              (Reindexer.merge_files read files acc' = None <->
               exists f, ((name, n) = f \/ In f files) /\ read (fst f) = Reindexer.ReadOk (Some JNull))).
    { intros acc' Hnn. rewrite IH. split; intros (f & Hf & Hn); [exists f; auto|].
      destruct Hf as [<-|Hf]; [simpl in Hn; congruence | exists f; auto]. }
    destruct (read name) as [|[v|]] eqn:Hr; try (apply Hskip; discriminate).
    destruct v; try (apply Hskip; discriminate).
    + split; [intros _; exists (name, n); split; [left; reflexivity | exact Hr] | reflexivity].
    + destruct (lookup "chunks" kvs) as [[]|]; apply Hskip; discriminate.
Qed.

Lemma reindex_group_none : forall read files,
  Reindexer.reindex_group read files = None <->
  exists f, In f files /\ read (fst f) = Reindexer.ReadOk (Some JNull).
Proof.
  intros read files. unfold Reindexer.reindex_group.
  destruct (Reindexer.merge_files read (sort_by_num files) []) eqn:E.
  - split; [discriminate|]. intros (f & Hf & Hn).
    assert (Hs : Reindexer.merge_files read (sort_by_num files) [] = None).
    { apply merge_files_none. exists f. split; [|exact Hn].
      eapply Permutation_in; [symmetry; apply sort_by_num_perm | exact Hf]. }
    congruence.
  - split; [intros _|reflexivity].
    apply merge_files_none in E as (f & Hf & Hn). exists f. split; [|exact Hn].
    eapply Permutation_in; [apply sort_by_num_perm | exact Hf].
Qed.

Lemma reindex_step_cases : forall env st g,
  (Reindexer.reindex_group (Reindexer.ri_read env) (snd g) = None /\
   Reindexer.reindex_step env st g = inr st) \/
  (exists cs, Reindexer.reindex_group (Reindexer.ri_read env) (snd g) = Some cs /\
   Reindexer.reindex_step env st g =
     inl (if Reindexer.ri_can_write env (finalFileName (fst g)) then
            {| Reindexer.ro_files := set_prop (finalFileName (fst g))
                   (stringify2 (JObj [("chunks", JArr cs)])) (Reindexer.ro_files st);
               Reindexer.ro_meta := set_prop (finalFileName (fst g))
                   (Z.of_nat (String.length (stringify (JObj [("chunks", JArr cs)]))))
                   (Reindexer.ro_meta st);
               Reindexer.ro_meta_file := Reindexer.ro_meta_file st |}
          else st)).
Proof.
  intros env st [b files]. unfold Reindexer.reindex_step. simpl.
  destruct (Reindexer.reindex_group (Reindexer.ri_read env) files) as [cs|].
  - right. exists cs. split; [reflexivity|].
    destruct (Reindexer.ri_can_write env (finalFileName b)); reflexivity.
  - left. split; reflexivity.
Qed.

Lemma reindex_groups_inr : forall env gs st,
  (exists st', Reindexer.reindex_groups env gs st = inr st') <->
  exists g, In g gs /\ Reindexer.reindex_group (Reindexer.ri_read env) (snd g) = None.
Proof.
  intros env gs. induction gs as [|g gs IH]; intros st; simpl.
  - split; [intros (st' & H); discriminate | intros (g & [] & _)].
  - destruct (reindex_step_cases env st g) as [[Hn ->] | (cs & Hc & ->)].
    + split; [intros _; exists g; split; [left; reflexivity | exact Hn] | intros _; eexists; reflexivity].
    + rewrite IH. split; intros (g' & Hg' & Hn); [exists g'; split; [right|]; assumption|].
      destruct Hg' as [<-|Hg']; [congruence | exists g'; split; assumption].
Qed.

(** A property of the output kept by every step of the group loop. *)
Lemma reindex_groups_inv : forall (P : Reindexer.reindex_out -> Prop) env gs st,
  P st ->
  (forall st g cs, P st -> Reindexer.reindex_group (Reindexer.ri_read env) (snd g) = Some cs ->
     Reindexer.ri_can_write env (finalFileName (fst g)) = true ->
     P {| Reindexer.ro_files := set_prop (finalFileName (fst g))
              (stringify2 (JObj [("chunks", JArr cs)])) (Reindexer.ro_files st);
          Reindexer.ro_meta := set_prop (finalFileName (fst g))
              (Z.of_nat (String.length (stringify (JObj [("chunks", JArr cs)]))))
              (Reindexer.ro_meta st);
          Reindexer.ro_meta_file := Reindexer.ro_meta_file st |}) ->
  match Reindexer.reindex_groups env gs st with inl st' | inr st' => P st' end.
Proof.
  intros P env gs. induction gs as [|g gs IH]; intros st Hst Hstep; simpl; [exact Hst|].
  destruct (reindex_step_cases env st g) as [[Hn ->] | (cs & Hc & ->)]; [exact Hst|].
  apply IH; [|exact Hstep].
  destruct (Reindexer.ri_can_write env (finalFileName (fst g))) eqn:Hw; [|exact Hst].
  apply Hstep; assumption.
Qed.

Lemma reindex_main_inv : forall (P : Reindexer.reindex_out -> Prop) env,
  P Reindexer.empty_out ->
  (forall st, P st -> P {| Reindexer.ro_files := Reindexer.ro_files st;
                           Reindexer.ro_meta := Reindexer.ro_meta st;
                           Reindexer.ro_meta_file :=
                             Some (stringify2 (Reindexer.meta_to_json (Reindexer.ro_meta st))) |}) ->
  (forall st g cs, P st -> Reindexer.reindex_group (Reindexer.ri_read env) (snd g) = Some cs ->
     Reindexer.ri_can_write env (finalFileName (fst g)) = true ->
     P {| Reindexer.ro_files := set_prop (finalFileName (fst g))
              (stringify2 (JObj [("chunks", JArr cs)])) (Reindexer.ro_files st);
          Reindexer.ro_meta := set_prop (finalFileName (fst g))
              (Z.of_nat (String.length (stringify (JObj [("chunks", JArr cs)]))))
              (Reindexer.ro_meta st);
          Reindexer.ro_meta_file := Reindexer.ro_meta_file st |}) ->
  P (fst (Reindexer.main env)).
Proof.
  intros P env H0 Hmeta Hstep. unfold Reindexer.main.
  destruct (Reindexer.ri_listing env) as [names|]; [|exact H0].
  pose proof (reindex_groups_inv P env (group_files "json" names) Reindexer.empty_out H0 Hstep) as H.
  destruct (Reindexer.reindex_groups env (group_files "json" names) Reindexer.empty_out) as [st|st];
    [|exact H].
  destruct (Reindexer.ri_can_write_meta env); [apply Hmeta|]; exact H.
Qed.


Lemma stitch_fold_untouched : forall env gs st name,
  (forall g, In g gs -> finalFileName (fst g) <> name) ->
  lookup name (Stitcher.so_files (fold_left (Stitcher.stitch_step env) gs st)) =
    lookup name (Stitcher.so_files st) /\
  lookup name (Stitcher.so_meta (fold_left (Stitcher.stitch_step env) gs st)) =
    lookup name (Stitcher.so_meta st).
Proof.
  intros env gs. induction gs as [|[b files] gs IH]; intros st name Hg; simpl; [split; reflexivity|].
  rewrite !(proj1 (IH _ name ltac:(intros g Hin; apply Hg; right; exact Hin))),
          !(proj2 (IH _ name ltac:(intros g Hin; apply Hg; right; exact Hin))).
  unfold Stitcher.stitch_step.
  destruct (Stitcher.st_can_write env (finalFileName b)); [|split; reflexivity].
  assert (Hne : name <> finalFileName b) by (intros ->; apply (Hg (b, files)); [left|]; reflexivity).
  simpl. rewrite !lookup_set_prop_other by exact Hne. split; reflexivity.
Qed.

Lemma append_assoc' : forall a b c : string, ((a ++ b) ++ c)%string = (a ++ b ++ c)%string.
Proof. induction a as [|x a IH]; intros; simpl; [reflexivity | rewrite IH; reflexivity]. Qed.

Lemma append_nil_r' : forall a : string, (a ++ "")%string = a.
Proof. induction a as [|x a IH]; simpl; [reflexivity | rewrite IH; reflexivity]. Qed.

Lemma concat_empty_cons : forall x l,
  String.concat "" (x :: l) = (x ++ String.concat "" l)%string.
Proof. intros x [|y l]; simpl; [rewrite append_nil_r'|]; reflexivity. Qed.

Lemma stitch_contents_concat : forall read files acc,
  Stitcher.stitch_contents read files acc =
  (acc ++ String.concat "" (map (fun f => match read (fst f) with
                                          | Some content => content ++ nl
                                          | None => ""
                                          end) files))%string.
Proof.
  intros read files. induction files as [|[name n] files IH]; intros acc;
    cbn [Stitcher.stitch_contents map fst].
  - simpl. rewrite append_nil_r'. reflexivity.
  - rewrite concat_empty_cons. destruct (read name); rewrite IH; simpl.
    + rewrite !append_assoc'. reflexivity.
    + reflexivity.
Qed.

(** [JSON.stringify]'s indented form is never shorter than its compact form. *)
Lemma json_ind' (P : json -> Prop)
  (HN : P JNull) (HB : forall b, P (JBool b)) (HNum : forall n, P (JNum n))
  (HS : forall s, P (JStr s)) (HA : forall l, Forall P l -> P (JArr l))
  (HO : forall kvs, Forall (fun kv => P (snd kv)) kvs -> P (JObj kvs)) :
  forall v, P v.
Proof.
  exact (fix F v := match v with
    | JNull => HN
    | JBool b => HB b
    | JNum n => HNum n
    | JStr s => HS s
    | JArr l => HA l ((fix G l := match l return Forall P l with
                                  | [] => Forall_nil _
                                  | x :: l' => Forall_cons _ (F x) (G l')
                                  end) l)
    | JObj kvs => HO kvs ((fix G kvs := match kvs return Forall (fun kv => P (snd kv)) kvs with
                                        | [] => Forall_nil _
                                        | (k, x) :: kvs' => Forall_cons (k, x) (F x) (G kvs')
                                        end) kvs)
    end).
Qed.

Lemma length_append' : forall a b : string,
  String.length (a ++ b) = (String.length a + String.length b)%nat.
Proof. induction a as [|x a IH]; intros b; simpl; [reflexivity | rewrite IH; reflexivity]. Qed.

Lemma concat_length_le : forall sep1 sep2 xs ys,
  (String.length sep1 <= String.length sep2)%nat ->
  Forall2 (fun x y => String.length x <= String.length y)%nat xs ys ->
  (String.length (String.concat sep1 xs) <= String.length (String.concat sep2 ys))%nat.
Proof.
  intros sep1 sep2 xs ys Hs H. induction H as [|x y xs ys Hxy Hr IH]; [simpl; lia|].
  destruct Hr as [|x' y' xs' ys' Hxy' Hr'].
  - simpl. exact Hxy.
  - change (String.concat sep1 (x :: x' :: xs')) with (x ++ sep1 ++ String.concat sep1 (x' :: xs'))%string.
    change (String.concat sep2 (y :: y' :: ys')) with (y ++ sep2 ++ String.concat sep2 (y' :: ys'))%string.
    rewrite !length_append'. lia.
Qed.

Lemma stringify_pretty_longer : forall v ind,
  (String.length (stringify v) <= String.length (stringify_pretty ind v))%nat.
Proof.
  induction v as [| | | |l Hl|kvs Hkvs] using json_ind'; intros ind; try (simpl; lia).
  - destruct l as [|x l]; [simpl; lia|].
    cbn [stringify stringify_pretty]. rewrite !length_append'.
    assert (String.length (String.concat "," (map stringify (x :: l))) <=
            String.length (String.concat ("," ++ nl ++ ind ++ "  ")
                             (map (stringify_pretty (ind ++ "  ")) (x :: l))))%nat.
    { apply concat_length_le; [rewrite !length_append'; simpl; lia|].
      clear -Hl. induction Hl as [|y l' Hy Hl' IH]; simpl; constructor; auto. }
    lia.
  - destruct kvs as [|kv kvs]; [simpl; lia|].
    cbn [stringify stringify_pretty]. rewrite !length_append'.
    assert (String.length (String.concat ","
              (map (fun p : string * json => let (k, x) := p in (quote k ++ ":" ++ stringify x)%string) (kv :: kvs))) <=
            String.length (String.concat ("," ++ nl ++ ind ++ "  ")
              (map (fun p : string * json => let (k, x) := p in
                     (quote k ++ ": " ++ stringify_pretty (ind ++ "  ") x)%string) (kv :: kvs))))%nat.
    { apply concat_length_le; [rewrite !length_append'; simpl; lia|].
      clear -Hkvs. induction Hkvs as [|[k x] kvs' Hx Hkvs' IH]; cbn [map]; constructor; auto.
      rewrite !length_append'. simpl in Hx. specialize (Hx (ind ++ "  ")%string).
      cbn [String.length]. lia. }
    lia.
Qed.



End PipelineFacts.

(* ------------------------------------------------------------------ *)
(** ** Further properties of the chunker, the splitter and the stitchers *)

Module Extras.
Import JS Chunker ChunkerFacts ChunkerMore Json Naming Splitter SplitterFacts
       StitchFacts PipelineFacts.
Local Open Scope list_scope.


Lemma nth_error_seq_some : forall a n k x, nth_error (seq a n) k = Some x -> x = (a + k)%nat.
Proof.
  intros a n. revert a. induction n as [|n IH]; intros a [|k] x H; simpl in H;
    try discriminate.
  - injection H as <-. lia.
  - apply IH in H. lia.
Qed.

Lemma nth_error_map_some : forall {A B} (f : A -> B) l k y,
  nth_error (map f l) k = Some y -> exists x, nth_error l k = Some x /\ y = f x.
Proof.
  intros A B f l k y H. rewrite nth_error_map in H.
  destruct (nth_error l k) as [x|]; [injection H as <-; exists x; split; reflexivity | discriminate].
Qed.


(** The splitter cuts a text of length [L] into [ceil(L / 9800)] chunks:
    chunk [k] is the [CHUNK_SIZE] characters from [k * 9800] on, marked
    when [k > 0]; an empty text gives no chunk. *)
Theorem split_content_closed_form : forall content,
  exists chunks, split_content content = Some chunks /\
    List.length chunks = ((String.length content + 9800 - 1) / 9800)%nat /\
    forall k c, nth_error chunks k = Some c ->
      (k = 0%nat -> c = substring 0 CHUNK_SIZE content) /\
      ((0 < k)%nat -> c = mark_overlap OVERLAP (substring (k * 9800) CHUNK_SIZE content)).
Proof.
  intros content. destruct constants as [Hlt Hd].
  eexists. split; [apply split_content_spec|]. rewrite Hd. split.
  - rewrite length_map, length_seq. reflexivity.
  - intros k c Hk. apply nth_error_map_some in Hk as (x & Hx & ->).
    apply nth_error_seq_some in Hx. simpl in Hx. subst x.
    unfold chunk_at. split.
    + intros ->. reflexivity.
    + intros Hk. destruct (Nat.ltb_spec 0 (k * 9800)); [reflexivity | nia].
Qed.


(** The names the splitter gives the chunks of one base name form,
    under the stitcher's pattern, exactly one group: that base name, with
    each name numbered by its chunk number, in order. *)
Theorem split_names_group_back : forall b m,
  forallb (fun c => negb (is_line_terminator c)) (list_ascii_of_string b) = true ->
  group_files "txt" (map (outputFileName b) (seq 1 (S m))) =
    [(b, map (fun k => (outputFileName b k, Z.of_nat k)) (seq 1 (S m)))].
Proof.
  intros b m Hb. induction m as [|m IH].
  - cbn [seq map]. unfold group_files. cbn [fold_left].
    rewrite match_outputFileName by exact Hb. reflexivity.
  - rewrite (seq_S (S m) 1), !map_app. cbn [map].
    rewrite group_files_snoc, IH, match_outputFileName by exact Hb.
    cbn [add_to_group]. rewrite String.eqb_refl. reflexivity.
Qed.


(** Cutting a text at a whitespace character adds up the token counts
    of the two sides. *)
Theorem countTokens_app_ws : forall a c b, is_ws c = true ->
  countTokens (a ++ String c b)%string = countTokens a + countTokens b.
Proof.
  intros a c b Hc. unfold countTokens. rewrite tokenize_app_ws by exact Hc.
  rewrite length_app. lia.
Qed.

(** A text has no token exactly when all its characters are whitespace,
    and then [splitIntoChunks] gives no chunk, whatever its parameters. *)
Theorem countTokens_zero_no_chunks : forall s,
  (countTokens s = 0 <-> forall c, In c (list_ascii_of_string s) -> is_ws c = true) /\
  (countTokens s = 0 -> forall chunkSize overlap, splitIntoChunks s chunkSize overlap = Some []).
Proof.
  intros s. assert (H0 : countTokens s = 0 <-> tokenize s = []).
  { unfold countTokens. rewrite <- length_zero_iff_nil. lia. }
  split; [rewrite H0; apply tokenize_nil_iff|].
  intros Hz chunkSize overlap. apply H0 in Hz.
  unfold splitIntoChunks, splitIntoChunks_fuel. rewrite Hz. reflexivity.
Qed.

(** With [overlap < chunkSize] the chunking loop ends, and gives at most
    one chunk per token. *)
Theorem splitIntoChunks_at_most_tokens : forall text chunkSize overlap,
  overlap < chunkSize ->
  exists chunks, splitIntoChunks text chunkSize overlap = Some chunks /\
    Z.of_nat (List.length chunks) <= countTokens text.
Proof.
  intros text cs ov Hlt. unfold splitIntoChunks, splitIntoChunks_fuel, countTokens.
  destruct (chunk_loop_terminates (tokenize text) cs ov Hlt (S (List.length (tokenize text))) 0 []
              (Z.le_refl 0) ltac:(lia)) as (l & Hrun & Hlen).
  exists l. split; [exact Hrun | lia].
Qed.

(** With [0 <= overlap < chunkSize] the number of chunks is [0] for no
    token, and otherwise [1] plus the number of [chunkSize - overlap]
    steps needed for the window to reach the last token. *)
Theorem splitIntoChunks_count : forall text chunkSize overlap,
  0 <= overlap < chunkSize ->
  exists chunks, splitIntoChunks text chunkSize overlap = Some chunks /\
    Z.of_nat (List.length chunks) =
      if countTokens text =? 0 then 0
      else 1 + Z.max 0 ((countTokens text - chunkSize + (chunkSize - overlap) - 1)
                        / (chunkSize - overlap)).
Proof.
  intros text cs ov Hov. unfold splitIntoChunks, splitIntoChunks_fuel, countTokens.
  destruct (Z.eqb_spec (Z.of_nat (List.length (tokenize text))) 0) as [Hz|Hz].
  - exists []. split; [|reflexivity].
    destruct (tokenize text) as [|t ts]; [reflexivity | simpl in Hz; lia].
  - destruct (chunk_loop_count (tokenize text) cs ov Hov (S (List.length (tokenize text))) 0 []
                ltac:(lia) ltac:(lia)) as (l & Hrun & Hlen).
    exists l. split; [exact Hrun|]. rewrite Hlen, Z.sub_0_r. reflexivity.
Qed.


Lemma stringify_chunks_shorter : forall cs,
  (String.length (stringify (JObj [("chunks", JArr cs)])) <
   String.length (stringify2 (JObj [("chunks", JArr cs)])))%nat.
Proof.
  intros cs. unfold stringify2. generalize (JArr cs) as a. intros a.
  cbn [stringify stringify_pretty map String.concat].
  rewrite !length_append'. cbn [String.length].
  pose proof (stringify_pretty_longer a ("" ++ "  ")%string). lia.
Qed.

Lemma concat_sub_chunks_nil : forall read (l : list (string * Z)),
  (forall f, In f l -> Reindexer.sub_chunks (read (fst f)) = []) ->
  List.concat (map (fun f => Reindexer.sub_chunks (read (fst f))) l) = [].
Proof.
  intros read l H. induction l as [|f l IH]; [reflexivity|].
  cbn [map List.concat]. rewrite (H f (or_introl eq_refl)), IH; [reflexivity|].
  intros g Hg. apply H. right. exact Hg.
Qed.

Lemma stitch_step_write : forall env st b files,
  Stitcher.st_can_write env (finalFileName b) = true ->
  Stitcher.stitch_step env st (b, files) =
  {| Stitcher.so_files := set_prop (finalFileName b)
         (Stitcher.stitch_group (Stitcher.st_read env) b files) (Stitcher.so_files st);
     Stitcher.so_meta := set_prop (finalFileName b)
         (Z.of_nat (String.length (Stitcher.stitch_group (Stitcher.st_read env) b files)))
         (Stitcher.so_meta st);
     Stitcher.so_meta_file := Stitcher.so_meta_file st |}.
Proof.
  intros env st b files H. unfold Stitcher.stitch_step. cbv beta iota zeta.
  rewrite H. reflexivity.
Qed.

Lemma reindex_groups_env : forall env1 env2 gs st,
  Reindexer.ri_read env1 = Reindexer.ri_read env2 ->
  Reindexer.ri_can_write env1 = Reindexer.ri_can_write env2 ->
  Reindexer.reindex_groups env1 gs st = Reindexer.reindex_groups env2 gs st.
Proof.
  intros env1 env2 gs. induction gs as [|g gs IH]; intros st H1 H2; simpl; [reflexivity|].
  assert (Hs : Reindexer.reindex_step env1 st g = Reindexer.reindex_step env2 st g)
    by (unfold Reindexer.reindex_step; rewrite H1, H2; reflexivity).
  rewrite Hs. destruct (Reindexer.reindex_step env2 st g); [apply IH; assumption | reflexivity].
Qed.


(** The grouping loop of both stitch scripts: the group of a base name
    lists exactly the matching names with that base name, numbered, in
    listing order (no group when there is none), and no base name has
    two groups. *)
Theorem group_files_groups : forall ext names b,
  lookup b (group_files ext names) =
    match List.concat (map (fun f => match match_chunk_file ext f with
                                     | Some (b', n) => if String.eqb b' b then [(f, n)] else []
                                     | None => []
                                     end) names) with
    | [] => None
    | es => Some es
    end /\
  NoDup (map fst (group_files ext names)).
Proof.
  intros ext names b. split; [apply group_files_lookup | apply group_files_nodup].
Qed.

(** A listed name that does not match "<base>-<digits>.txt" changes
    nothing the stitcher does, even when it cannot be read. *)
Theorem stitcher_ignores_unmatched_names : forall read canWrite canWriteMeta pre f post,
  match_chunk_file "txt" f = None ->
  Stitcher.main {| Stitcher.st_listing := Some (pre ++ f :: post); Stitcher.st_read := read;
                   Stitcher.st_can_write := canWrite;
                   Stitcher.st_can_write_meta := canWriteMeta |} =
  Stitcher.main {| Stitcher.st_listing := Some (pre ++ post); Stitcher.st_read := read;
                   Stitcher.st_can_write := canWrite;
                   Stitcher.st_can_write_meta := canWriteMeta |}.
Proof.
  intros read canWrite canWriteMeta pre f post Hf. unfold Stitcher.main.
  cbn [Stitcher.st_listing]. rewrite group_files_skip by exact Hf. reflexivity.
Qed.

(** A listed name that does not match "<base>-<digits>.json" changes
    nothing the re-indexer does, even when it holds [null]. *)
Theorem reindexer_ignores_unmatched_names : forall read canWrite canWriteMeta pre f post,
  match_chunk_file "json" f = None ->
  Reindexer.main {| Reindexer.ri_listing := Some (pre ++ f :: post); Reindexer.ri_read := read;
                    Reindexer.ri_can_write := canWrite;
                    Reindexer.ri_can_write_meta := canWriteMeta |} =
  Reindexer.main {| Reindexer.ri_listing := Some (pre ++ post); Reindexer.ri_read := read;
                    Reindexer.ri_can_write := canWrite;
                    Reindexer.ri_can_write_meta := canWriteMeta |}.
Proof.
  intros read canWrite canWriteMeta pre f post Hf. unfold Reindexer.main.
  cbn [Reindexer.ri_listing]. rewrite group_files_skip by exact Hf.
  erewrite reindex_groups_env; [reflexivity | reflexivity | reflexivity].
Qed.

(** The re-indexer stops with an uncaught exception exactly when one of
    the listed names matching "<base>-<digits>.json" holds the JSON text
    [null]; it then never writes the metadata file. *)
Theorem reindexer_aborts_iff_null_record : forall env names,
  Reindexer.ri_listing env = Some names ->
  (snd (Reindexer.main env) = Reindexer.Aborted <->
   exists f, In f names /\ match_chunk_file "json" f <> None /\
             Reindexer.ri_read env f = Reindexer.ReadOk (Some JNull)) /\
  (snd (Reindexer.main env) = Reindexer.Aborted ->
   Reindexer.ro_meta_file (fst (Reindexer.main env)) = None).
Proof.
  intros env names Hl.
  pose proof (reindex_groups_inv (fun st => Reindexer.ro_meta_file st = None) env
                (group_files "json" names) Reindexer.empty_out eq_refl
                (fun st g cs H _ _ => H)) as Hinv.
  assert (Hiff : (exists st', Reindexer.reindex_groups env (group_files "json" names)
                                Reindexer.empty_out = inr st') <->
                 exists f, In f names /\ match_chunk_file "json" f <> None /\
                           Reindexer.ri_read env f = Reindexer.ReadOk (Some JNull)).
  { rewrite reindex_groups_inr. split.
    - intros ((b, es) & Hg & Hn). apply reindex_group_none in Hn as (x & Hx & Hnull).
      destruct (proj1 (group_entries "json" names x)
                  (ex_intro _ b (ex_intro _ es (conj Hg Hx)))) as (Hf & b' & Hm).
      exists (fst x). split; [exact Hf|]. split; [rewrite Hm; discriminate | exact Hnull].
    - intros (f & Hf & Hm & Hnull).
      destruct (match_chunk_file "json" f) as [[b n]|] eqn:Em; [|congruence].
      destruct (proj2 (group_entries "json" names (f, n)) (conj Hf (ex_intro _ b Em)))
        as (b' & es & Hg & Hx).
      exists (b', es). split; [exact Hg|]. apply reindex_group_none.
      exists (f, n). split; [exact Hx | exact Hnull]. }
  unfold Reindexer.main. rewrite Hl.
  destruct (Reindexer.reindex_groups env (group_files "json" names) Reindexer.empty_out)
    as [st|st] eqn:E.
  - split.
    + split; [destruct (Reindexer.ri_can_write_meta env); discriminate|].
      intros Hx. apply Hiff in Hx as (st' & Hst'). congruence.
    + destruct (Reindexer.ri_can_write_meta env); discriminate.
  - split; [split; [intros _; apply Hiff; exists st; reflexivity | reflexivity]|].
    intros _. exact Hinv.
Qed.

(** The length the re-indexer records for a file is always smaller than
    the length of the text it wrote to it: it measures the compact
    [JSON.stringify] of the object whose indented form it writes. *)
Theorem reindexer_meta_below_written_length : forall env name len,
  lookup name (Reindexer.ro_meta (fst (Reindexer.main env))) = Some len ->
  exists content, lookup name (Reindexer.ro_files (fst (Reindexer.main env))) = Some content /\
    len < Z.of_nat (String.length content).
Proof.
  intros env.
  apply (reindex_main_inv (fun st => forall name len,
           lookup name (Reindexer.ro_meta st) = Some len ->
           exists content, lookup name (Reindexer.ro_files st) = Some content /\
             len < Z.of_nat (String.length content))).
  - intros name len H. discriminate H.
  - intros st H. exact H.
  - intros st g cs H _ _ name len. cbn [Reindexer.ro_meta Reindexer.ro_files].
    destruct (String.eqb_spec name (finalFileName (fst g))) as [->|Hne].
    + rewrite !lookup_set_prop_same. intros Hl.
      assert (Hlen : len = Z.of_nat (String.length (stringify (JObj [("chunks", JArr cs)]))))
        by congruence.
      eexists. split; [reflexivity|]. pose proof (stringify_chunks_shorter cs). lia.
    + rewrite !lookup_set_prop_other by exact Hne. apply H.
Qed.



(** When two groups get the same output name (as "a-1.txt" and
    "a.txt-1.txt" both give "a.txt"), the stitcher keeps the text, and
    the length, of the group it handles last. *)
Theorem stitcher_last_group_wins : forall env names pre b files post,
  Stitcher.st_listing env = Some names ->
  group_files "txt" names = pre ++ (b, files) :: post ->
  Stitcher.st_can_write env (finalFileName b) = true ->
  (forall g, In g post -> finalFileName (fst g) <> finalFileName b) ->
  lookup (finalFileName b) (Stitcher.so_files (Stitcher.main env)) =
    Some (Stitcher.stitch_group (Stitcher.st_read env) b files) /\
  lookup (finalFileName b) (Stitcher.so_meta (Stitcher.main env)) =
    Some (Z.of_nat (String.length (Stitcher.stitch_group (Stitcher.st_read env) b files))).
Proof.
  intros env names pre b files post Hl Hg Hw Hpost.
  assert (H : forall st,
    lookup (finalFileName b) (Stitcher.so_files
      (fold_left (Stitcher.stitch_step env) (pre ++ (b, files) :: post) st)) =
      Some (Stitcher.stitch_group (Stitcher.st_read env) b files) /\
    lookup (finalFileName b) (Stitcher.so_meta
      (fold_left (Stitcher.stitch_step env) (pre ++ (b, files) :: post) st)) =
      Some (Z.of_nat (String.length (Stitcher.stitch_group (Stitcher.st_read env) b files)))).
  { intros st. rewrite fold_left_app. cbn [fold_left].
    destruct (stitch_fold_untouched env post
                (Stitcher.stitch_step env (fold_left (Stitcher.stitch_step env) pre st) (b, files))
                (finalFileName b) Hpost) as [H1 H2].
    rewrite H1, H2, stitch_step_write by exact Hw. cbn [Stitcher.so_files Stitcher.so_meta].
    rewrite !lookup_set_prop_same. split; reflexivity. }
  unfold Stitcher.main. rewrite Hl, Hg.
  destruct (Stitcher.st_can_write_meta env); apply H.
Qed.

(** A group none of whose files holds [null] or a [chunks] array (files
    that cannot be read or parsed, or other records) still gets its
    output file, holding an empty [chunks] array, with length 13 on
    record. *)
Theorem reindex_step_empty_group : forall env st b files,
  (forall f, In f files ->
     Reindexer.ri_read env (fst f) <> Reindexer.ReadOk (Some JNull) /\
     Reindexer.sub_chunks (Reindexer.ri_read env (fst f)) = []) ->
  Reindexer.ri_can_write env (finalFileName b) = true ->
  Reindexer.reindex_step env st (b, files) =
    inl {| Reindexer.ro_files :=
             set_prop (finalFileName b)
               ("{" ++ nl ++ "  " ++ dquote ++ "chunks" ++ dquote ++ ": []" ++ nl ++ "}")%string
               (Reindexer.ro_files st);
           Reindexer.ro_meta := set_prop (finalFileName b) 13 (Reindexer.ro_meta st);
           Reindexer.ro_meta_file := Reindexer.ro_meta_file st |}.
Proof.
  intros env st b files Hf Hw. unfold Reindexer.reindex_step, Reindexer.reindex_group.
  rewrite merge_files_concat.
  2:{ intros f Hin. apply Hf. eapply Permutation_in; [apply sort_by_num_perm | exact Hin]. }
  rewrite concat_sub_chunks_nil.
  2:{ intros f Hin. apply Hf. eapply Permutation_in; [apply sort_by_num_perm | exact Hin]. }
  cbv beta iota zeta. rewrite Hw. reflexivity.
Qed.



Lemma split_names_group_back_witness :
  forallb (fun c => negb (is_line_terminator c)) (list_ascii_of_string "doc") = true /\
  group_files "txt" (map (outputFileName "doc") (seq 1 3)) =
    [("doc", map (fun k => (outputFileName "doc" k, Z.of_nat k)) (seq 1 3))].
Proof. split; [reflexivity | apply (split_names_group_back "doc" 2); reflexivity]. Defined.

Lemma countTokens_app_ws_witness :
  is_ws " "%char = true /\
  countTokens ("one" ++ String " "%char "two three")%string =
    countTokens "one" + countTokens "two three".
Proof. split; [reflexivity | apply countTokens_app_ws; reflexivity]. Defined.

Lemma splitIntoChunks_at_most_tokens_witness :
  1 < 3 /\
  exists chunks, splitIntoChunks "a b c d" 3 1 = Some chunks /\
    Z.of_nat (List.length chunks) <= countTokens "a b c d".
Proof. split; [lia | apply splitIntoChunks_at_most_tokens; lia]. Defined.

Lemma splitIntoChunks_count_witness :
  0 <= 1 < 2 /\
  exists chunks, splitIntoChunks "a b c d e" 2 1 = Some chunks /\
    Z.of_nat (List.length chunks) =
      if countTokens "a b c d e" =? 0 then 0
      else 1 + Z.max 0 ((countTokens "a b c d e" - 2 + (2 - 1) - 1) / (2 - 1)).
Proof. split; [lia | apply splitIntoChunks_count; lia]. Defined.


Lemma stitcher_ignores_unmatched_names_witness :
  match_chunk_file "txt" "notes.md" = None /\
  Stitcher.main {| Stitcher.st_listing := Some (["a-1.txt"] ++ "notes.md" :: ["a-2.txt"]);
                   Stitcher.st_read := fun f => Some f;
                   Stitcher.st_can_write := fun _ => true;
                   Stitcher.st_can_write_meta := true |} =
  Stitcher.main {| Stitcher.st_listing := Some (["a-1.txt"] ++ ["a-2.txt"]);
                   Stitcher.st_read := fun f => Some f;
                   Stitcher.st_can_write := fun _ => true;
                   Stitcher.st_can_write_meta := true |}.
Proof.
  split; [vm_compute; reflexivity|].
  apply stitcher_ignores_unmatched_names. vm_compute. reflexivity.
Defined.

Lemma reindexer_ignores_unmatched_names_witness :
  match_chunk_file "json" "notes.json.bak" = None /\
  Reindexer.main {| Reindexer.ri_listing := Some (["a-1.json"] ++ "notes.json.bak" :: []);
                    Reindexer.ri_read := fun f => if String.eqb f "a-1.json"
                                                  then Reindexer.ReadError
                                                  else Reindexer.ReadOk (Some JNull);
                    Reindexer.ri_can_write := fun _ => true;
                    Reindexer.ri_can_write_meta := true |} =
  Reindexer.main {| Reindexer.ri_listing := Some (["a-1.json"] ++ []);
                    Reindexer.ri_read := fun f => if String.eqb f "a-1.json"
                                                  then Reindexer.ReadError
                                                  else Reindexer.ReadOk (Some JNull);
                    Reindexer.ri_can_write := fun _ => true;
                    Reindexer.ri_can_write_meta := true |}.
Proof.
  split; [vm_compute; reflexivity|].
  apply reindexer_ignores_unmatched_names. vm_compute. reflexivity.
Defined.

Lemma reindexer_aborts_iff_null_record_witness :
  let env := {| Reindexer.ri_listing := Some ["a-1.json"; "b.txt"];
                Reindexer.ri_read := fun f => if String.eqb f "a-1.json"
                                              then Reindexer.ReadOk (Some JNull)
                                              else Reindexer.ReadError;
                Reindexer.ri_can_write := fun _ => true;
                Reindexer.ri_can_write_meta := true |} in
  Reindexer.ri_listing env = Some ["a-1.json"; "b.txt"] /\
  snd (Reindexer.main env) = Reindexer.Aborted /\
  Reindexer.ro_meta_file (fst (Reindexer.main env)) = None.
Proof.
  intros env.
  destruct (reindexer_aborts_iff_null_record env ["a-1.json"; "b.txt"] eq_refl) as [Hiff Hmeta].
  assert (Ha : snd (Reindexer.main env) = Reindexer.Aborted).
  { apply Hiff. exists "a-1.json". split; [left; reflexivity|].
    split; [intros Hn; vm_compute in Hn; discriminate Hn | reflexivity]. }
  split; [reflexivity|]. split; [exact Ha | apply Hmeta, Ha].
Defined.

Lemma reindexer_meta_below_written_length_witness :
  lookup "doc.txt" (Reindexer.ro_meta (fst (Reindexer.main Examples.c7_env))) = Some 48 /\
  exists content,
    lookup "doc.txt" (Reindexer.ro_files (fst (Reindexer.main Examples.c7_env))) = Some content /\
    48 < Z.of_nat (String.length content).
Proof.
  split; [vm_compute; reflexivity|].
  apply reindexer_meta_below_written_length. vm_compute. reflexivity.
Defined.

Lemma stitcher_last_group_wins_witness :
  let env := {| Stitcher.st_listing := Some ["a-1.txt"; "a.txt-1.txt"];
                Stitcher.st_read := fun f => Some f;
                Stitcher.st_can_write := fun _ => true;
                Stitcher.st_can_write_meta := true |} in
  Stitcher.st_listing env = Some ["a-1.txt"; "a.txt-1.txt"] /\
  group_files "txt" ["a-1.txt"; "a.txt-1.txt"] =
    [("a", [("a-1.txt", 1)])] ++ ("a.txt", [("a.txt-1.txt", 1)]) :: [] /\
  Stitcher.st_can_write env (finalFileName "a.txt") = true /\
  finalFileName "a" = finalFileName "a.txt" /\
  lookup (finalFileName "a.txt") (Stitcher.so_files (Stitcher.main env)) =
    Some (Stitcher.stitch_group (Stitcher.st_read env) "a.txt" [("a.txt-1.txt", 1)]) /\
  lookup (finalFileName "a.txt") (Stitcher.so_meta (Stitcher.main env)) =
    Some (Z.of_nat (String.length
            (Stitcher.stitch_group (Stitcher.st_read env) "a.txt" [("a.txt-1.txt", 1)]))).
Proof.
  intros env.
  assert (Hg : group_files "txt" ["a-1.txt"; "a.txt-1.txt"] =
                 [("a", [("a-1.txt", 1)])] ++ ("a.txt", [("a.txt-1.txt", 1)]) :: [])
    by (vm_compute; reflexivity).
  split; [reflexivity|]. split; [exact Hg|]. split; [reflexivity|].
  split; [vm_compute; reflexivity|].
  apply (stitcher_last_group_wins env ["a-1.txt"; "a.txt-1.txt"] [("a", [("a-1.txt", 1)])]
           "a.txt" [("a.txt-1.txt", 1)] []); [reflexivity | exact Hg | reflexivity |].
  intros g [].
Defined.

Lemma reindex_step_empty_group_witness :
  let env := {| Reindexer.ri_listing := None;
                Reindexer.ri_read := fun _ => Reindexer.ReadOk None;
                Reindexer.ri_can_write := fun _ => true;
                Reindexer.ri_can_write_meta := true |} in
  (forall f, In f [("x-1.json", 1)] ->
     Reindexer.ri_read env (fst f) <> Reindexer.ReadOk (Some JNull) /\
     Reindexer.sub_chunks (Reindexer.ri_read env (fst f)) = []) /\
  Reindexer.ri_can_write env (finalFileName "x") = true /\
  Reindexer.reindex_step env Reindexer.empty_out ("x", [("x-1.json", 1)]) =
    inl {| Reindexer.ro_files :=
             set_prop (finalFileName "x")
               ("{" ++ nl ++ "  " ++ dquote ++ "chunks" ++ dquote ++ ": []" ++ nl ++ "}")%string
               (Reindexer.ro_files Reindexer.empty_out);
           Reindexer.ro_meta := set_prop (finalFileName "x") 13
                                  (Reindexer.ro_meta Reindexer.empty_out);
           Reindexer.ro_meta_file := Reindexer.ro_meta_file Reindexer.empty_out |}.
Proof.
  intros env.
  assert (Hf : forall f, In f [("x-1.json", 1)] ->
     Reindexer.ri_read env (fst f) <> Reindexer.ReadOk (Some JNull) /\
     Reindexer.sub_chunks (Reindexer.ri_read env (fst f)) = []).
  { intros f [<-|[]]. split; [discriminate | reflexivity]. }
  split; [exact Hf|]. split; [reflexivity|].
  apply reindex_step_empty_group; [exact Hf | reflexivity].
Defined.


End Extras.
